(** * multikubectl: fan-out of one kubectl command to several cluster
    contexts, and the merge of the per-cluster outputs.

    The development follows the Go packages of the repository:
    - [strings], [utf8], [fmt]: the parts of the Go standard library the
      program calls, as executable functions on byte strings;
    - [executor] (pkg/executor/kubectl.go): [Result], [executeOne] and the
      concurrent [Execute], the latter as a step relation over worker
      completions;
    - [cluster] (pkg/cluster): [GetContexts] and [FilterContexts];
    - [output] (pkg/output): [MergeResults], [isHeaderLine], [formatLine]
      and [MergeNonTableOutput];
    - [config] (pkg/config): the list of configured contexts and its
      operations;
    - [cmd]: [separateArgs], the choice of the contexts and of the merge
      in [runMultiKubectl], and the loops of the [config] subcommands.

    A Go [string] is an immutable sequence of bytes: it is modelled by
    [string], whose characters ([ascii]) are exactly the 256 byte values.
    [len(s)] is [String.length s]. Go's [int] lengths and widths are [nat]
    (a length never wraps), the process exit code is a [Z]. *)

From Stdlib Require Import ZArith NArith Ascii String.
From stdpp Require Import gmap strings list fin_maps.

Local Open Scope string_scope.
Local Open Scope list_scope.

(** ** Go's [strings] package *)

Module strings.

(** The byte 0x0A (line feed) and the one-byte string holding it. *)
Definition LF : ascii := ascii_of_nat 10.
Definition nl : string := String LF "".

(** [strings.HasPrefix(s, prefix)]. *)
Definition HasPrefix (s prefix : string) : bool := String.prefix prefix s.

(** [strings.HasSuffix(s, suffix)]:
    [len(s) >= len(suffix) && s[len(s)-len(suffix):] == suffix]. *)
Definition HasSuffix (s suffix : string) : bool :=
  (String.length suffix <=? String.length s)%nat
  && String.eqb
       (substring (String.length s - String.length suffix)
                  (String.length suffix) s)
       suffix.

(** [strings.TrimSuffix(s, suffix)]: [s] without the trailing [suffix],
    removed at most once. *)
Definition TrimSuffix (s suffix : string) : string :=
  if HasSuffix s suffix
  then substring 0 (String.length s - String.length suffix) s
  else s.

(** [strings.Contains(s, substr)]: [substr] occurs somewhere in [s]. *)
Fixpoint Contains (s substr : string) : bool :=
  HasPrefix s substr
  || match s with
     | "" => false
     | String _ s' => Contains s' substr
     end.

(** [strings.Split(s, sep)] for a one-byte separator, the only use in the
    program ([sep] is a newline): the fields between the separators, in
    order; always at least one field, and a trailing separator yields a
    last empty field. *)
Fixpoint Split (s : string) (sep : ascii) : list string :=
  match s with
  | "" => [""]
  | String c s' =>
      if Ascii.eqb c sep then "" :: Split s' sep
      else match Split s' sep with
           | f :: fs => String c f :: fs
           | [] => [String c ""]
           end
  end.

(** A byte below [utf8.RuneSelf] (0x80). *)
Definition isASCIIbyte (c : ascii) : bool := (N_of_ascii c <? 128)%N.

Fixpoint isASCII (s : string) : bool :=
  match s with
  | "" => true
  | String c s' => isASCIIbyte c && isASCII s'
  end.

(** The ASCII case mapping of [ToUpper]: ['a'..'z'] lose 0x20. *)
Definition upperByte (c : ascii) : ascii :=
  let n := N_of_ascii c in
  if ((97 <=? n) && (n <=? 122))%N then ascii_of_N (n - 32) else c.

Fixpoint mapBytes (f : ascii -> ascii) (s : string) : string :=
  match s with
  | "" => ""
  | String c s' => String (f c) (mapBytes f s')
  end.

Section ToUpper.
(** [strings.Map(unicode.ToUpper, s)], the path [ToUpper] takes for a
    string with a byte of 0x80 or more. It decodes UTF-8 and consults
    the Unicode case tables, which are not part of the program: the
    development is parametric in it. *)
Variable unicodeUpper : string -> string.

(** [strings.ToUpper(s)]: an all-ASCII string is mapped byte by byte
    (returned as it is when it has no lower-case letter, which the byte
    map does as well); any other string goes through the Unicode
    mapping. *)
Definition ToUpper (s : string) : string :=
  if isASCII s then mapBytes upperByte s else unicodeUpper s.
End ToUpper.

End strings.

(** ** Go's [unicode/utf8]: counting runes *)

Module utf8.

(** For a leading byte of 0xC2..0xF4: the length of the encoding it
    announces and the range accepted for the second byte (the tables
    [first] and [acceptRanges]); [None] for a byte that cannot start a
    multi-byte encoding. *)
Definition leadInfo (c : N) : option (nat * N * N) :=
  (if c <? 194 then None
   else if c <=? 223 then Some (2%nat, 128, 191)
   else if c =? 224 then Some (3%nat, 160, 191)
   else if c =? 237 then Some (3%nat, 128, 159)
   else if c <=? 239 then Some (3%nat, 128, 191)
   else if c =? 240 then Some (4%nat, 144, 191)
   else if c <=? 243 then Some (4%nat, 128, 191)
   else if c =? 244 then Some (4%nat, 128, 143)
   else None)%N.

(** A continuation byte, 0x80..0xBF. *)
Definition isCont (c : ascii) : bool :=
  let n := N_of_ascii c in ((128 <=? n) && (n <=? 191))%N.

Definition inRange (lo hi : N) (c : ascii) : bool :=
  let n := N_of_ascii c in ((lo <=? n) && (n <=? hi))%N.

(** The number of bytes the loop of [RuneCountInString] advances by at a
    position holding byte [c] followed by [rest]: the length of a
    well-formed encoding, and 1 for an ASCII byte, an invalid leading
    byte, a short or an ill-formed encoding. *)
Definition runeSize (c : ascii) (rest : string) : nat :=
  if strings.isASCIIbyte c then 1
  else match leadInfo (N_of_ascii c) with
       | None => 1
       | Some (size, lo, hi) =>
           if (String.length rest <? size - 1)%nat then 1
           else match rest with
                | String c1 r1 =>
                    if negb (inRange lo hi c1) then 1
                    else if (size =? 2)%nat then 2
                    else match r1 with
                         | String c2 r2 =>
                             if negb (isCont c2) then 1
                             else if (size =? 3)%nat then 3
                             else match r2 with
                                  | String c3 _ =>
                                      if negb (isCont c3) then 1 else 4
                                  | "" => 1
                                  end
                         | "" => 1
                         end
                | "" => 1
                end
       end.

(** The loop of [RuneCountInString], by structural recursion: [skip] is
    the number of bytes still covered by the rune counted last. *)
Fixpoint runeCountFrom (skip : nat) (s : string) : nat :=
  match s with
  | "" => 0
  | String c rest =>
      match skip with
      | S k => runeCountFrom k rest
      | O => S (runeCountFrom (runeSize c rest - 1) rest)
      end
  end.

(** [utf8.RuneCountInString(s)]. *)
Definition RuneCountInString (s : string) : nat := runeCountFrom 0 s.

End utf8.

(** ** Go's [fmt]: the verbs the program uses *)

Module fmt.

Fixpoint spaces (n : nat) : string :=
  match n with
  | O => ""
  | S k => String " " (spaces k)
  end.

(** The verb [%-Ns] applied to [s]: [s], then spaces up to a width of [N]
    measured in runes; never truncated. *)
Definition padRight (width : nat) (s : string) : string :=
  s +:+ spaces (width - utf8.RuneCountInString s).

(** [fmt] reads the width of a verb back from the format string, digit
    by digit, and gives up as soon as the number read so far exceeds 10^6
    with a digit still to come: the widths it accepts are those below
    10,000,010. *)
Definition widthLimit : N := 10000010.

Definition widthAccepted (width : nat) : bool :=
  (N.of_nat width <? widthLimit)%N.

(** [fmt.Sprintf(fmt.Sprintf("%%-%ds   %%s", width), a, b)] as [fmt]
    computes it: with an accepted width, [a] padded to it, three spaces,
    [b]; with a width it gives up on, no verb is read, and the two
    arguments are reported as extra. *)
Definition SprintfPadded (width : nat) (a b : string) : string :=
  if widthAccepted width then padRight width a +:+ "   " +:+ b
  else "%!(NOVERB)%!(EXTRA string=" +:+ a +:+ ", string=" +:+ b +:+ ")".

End fmt.

(** ** Package [executor] (pkg/executor/kubectl.go) *)

Module executor.

(** Go's [error] values that reach a [Result]:
    - [errorString s]: the value built by [fmt.Errorf("%s", s)];
    - [ExitError code state]: os/exec's [*exec.ExitError], returned by
      [cmd.Run] when the child ran and did not succeed; [code] is what
      [ExitCode()] returns and [state] what [Error()] prints;
    - [otherError msg]: any other error of [cmd.Run] (the child could not
      be started, an I/O error, ...), known by its message. *)
Inductive error : Type :=
| errorString (s : string)
| ExitError (code : Z) (state : string)
| otherError (msg : string).

(** The method [Error()] of an [error], which [%v] prints. *)
Definition errorMessage (e : error) : string :=
  match e with
  | errorString s => s
  | ExitError _ state => state
  | otherError msg => msg
  end.

(** [type Result struct]; the zero value has empty strings, a nil error
    and exit code 0. *)
Record Result : Type := mkResult {
  Context : string;
  Output : string;
  Error : option error;
  ExitCode : Z
}.

Definition zeroResult : Result :=
  {| Context := ""; Output := ""; Error := None; ExitCode := 0 |}.

(** [type Executor struct]; the timeout is a [time.Duration]
    (nanoseconds). *)
Record Executor : Type := mkExecutor {
  kubeConfigPath : string;
  timeout : Z
}.

Definition NewExecutor (kubeConfigPath : string) (timeout : Z) : Executor :=
  {| kubeConfigPath := kubeConfigPath; timeout := timeout |}.

(** What [cmd.Run] leaves behind: the two capture buffers and its
    error. *)
Record RunOutcome : Type := mkRunOutcome {
  stdout : string;
  stderr : string;
  err : option error
}.

(** The outside world: running program [name] with arguments [args]
    under a deadline of [timeout] gives a [RunOutcome]. It stands for
    [exec.CommandContext(ctx, name, args...)] followed by [cmd.Run()]. *)
Definition Runner : Type := Z -> string -> list string -> RunOutcome.

(** The argument vector built by [executeOne]. *)
Definition cmdArgs (e : Executor) (contextName : string)
    (args : list string) : list string :=
  let base := ["--context"; contextName] in
  let base :=
    if String.eqb (kubeConfigPath e) "" then base
    else ["--kubeconfig"; kubeConfigPath e] ++ base in
  base ++ args.

(** [func (e *Executor) executeOne(contextName string, args []string) Result] *)
Definition executeOne (run : Runner) (e : Executor) (contextName : string)
    (args : list string) : Result :=
  let o := run (timeout e) "kubectl" (cmdArgs e contextName args) in
  let result :=
    {| Context := contextName; Output := stdout o;
       Error := None; ExitCode := 0 |} in
  match err o with
  | Some (ExitError code _) =>
      {| Context := Context result; Output := Output result;
         Error := Some (errorString (stderr o)); ExitCode := code |}
  | Some other =>
      {| Context := Context result; Output := Output result;
         Error := Some other; ExitCode := ExitCode result |}
  | None => result
  end.

(** *** [Execute]: one goroutine per context

    [Execute] allocates [results] with [len(contexts)] zero values and
    starts, for each index [i], a goroutine that stores
    [executeOne(contexts[i], args)] at [results[i]]; [wg.Wait()] returns
    when every goroutine has done so. The goroutines share nothing but
    [results], so an execution is determined by the order in which they
    store and by what the outside world answers to each of them.

    A state holds the indices of the goroutines still running and the
    slice. A step completes any one running goroutine, with any
    [Runner] for the world as that goroutine met it. *)
Record ExecState : Type := mkExecState {
  running : list nat;
  results : list Result
}.

Definition initState (contexts : list string) : ExecState :=
  {| running := seq 0 (length contexts);
     results := replicate (length contexts) zeroResult |}.

Inductive step (e : Executor) (contexts args : list string)
  : ExecState -> ExecState -> Prop :=
| step_done (st : ExecState) (before after : list nat) (index : nat)
    (context : string) (run : Runner) :
    running st = before ++ index :: after ->
    contexts !! index = Some context ->
    step e contexts args st
      {| running := before ++ after;
         results := <[index := executeOne run e context args]> (results st) |}.

Inductive steps (e : Executor) (contexts args : list string)
  : ExecState -> ExecState -> Prop :=
| steps_refl st : steps e contexts args st st
| steps_step st1 st2 st3 :
    step e contexts args st1 st2 ->
    steps e contexts args st2 st3 ->
    steps e contexts args st1 st3.

(** [Execute(contexts, args)] may return [rs]: some execution from the
    initial state reaches a state with no goroutine running (this is
    when [wg.Wait()] returns), whose slice is [rs]. *)
Definition Execute_returns (e : Executor) (contexts args : list string)
    (rs : list Result) : Prop :=
  exists st, steps e contexts args (initState contexts) st
             /\ running st = [] /\ results st = rs.

(** The execution in which the goroutines finish in the order given by
    [order], all meeting the world [run]; executable. *)
Definition Execute_in_order (run : Runner) (e : Executor)
    (contexts args : list string) (order : list nat) : list Result :=
  fold_left
    (fun rs index =>
       match contexts !! index with
       | Some context => <[index := executeOne run e context args]> rs
       | None => rs
       end)
    order (replicate (length contexts) zeroResult).

End executor.

(** ** Package [cluster] (pkg/cluster) *)

Module cluster.

(** [type Context struct] and [type ContextEntry struct]. *)
Record Context : Type := mkContext {
  Cluster : string;
  User : string;
  Namespace : string
}.

Record ContextEntry : Type := mkContextEntry {
  Name : string;
  EntryContext : Context
}.

(** [type KubeConfig struct]; the cluster and user entries, which no
    function below reads, are left out. *)
Record KubeConfig : Type := mkKubeConfig {
  APIVersion : string;
  Kind : string;
  CurrentContext : string;
  Contexts : list ContextEntry
}.

(** [type Manager struct], after [loadConfig] has filled [config]. *)
Record Manager : Type := mkManager {
  kubeConfigPath : string;
  config : KubeConfig
}.

(** [func (m *Manager) GetContexts() []string]: the loop appends the
    name of every entry, in the order of the file. *)
Definition GetContexts (m : Manager) : list string :=
  fold_left (fun contexts ctx => contexts ++ [Name ctx])
            (Contexts (config m)) [].

(** The map [availableContexts] built by the first loop of
    [FilterContexts]. *)
Definition availableContexts (m : Manager) : gmap string bool :=
  fold_left (fun available ctx => <[Name ctx := true]> available)
            (Contexts (config m)) ∅.

(** Reading a [map[string]bool] at a key: the zero value [false] when
    the key is absent. *)
Definition mapIndex (available : gmap string bool) (key : string) : bool :=
  default false (available !! key).

(** [func (m *Manager) FilterContexts(contexts []string) []string]. *)
Definition FilterContexts (m : Manager) (contexts : list string)
    : list string :=
  if (length contexts =? 0)%nat then GetContexts m
  else
    let available := availableContexts m in
    fold_left
      (fun filtered ctx =>
         if mapIndex available ctx then filtered ++ [ctx] else filtered)
      contexts [].

End cluster.

(** ** Package [output] (pkg/output) *)

Module output.
Import executor.

(** [type Merger struct]. *)
Record Merger : Type := mkMerger {
  clusterColumnWidth : nat
}.

Definition NewMerger : Merger := {| clusterColumnWidth := 0 |}.

(** The table [headerKeywords] of [isHeaderLine]. *)
Definition headerKeywords : list string :=
  [ "NAME"; "NAMESPACE"; "STATUS"; "READY"; "AGE"; "RESTARTS";
    "CLUSTER-IP"; "EXTERNAL-IP"; "PORT"; "NODE"; "NOMINATED";
    "READINESS"; "REASON"; "MESSAGE"; "TYPE"; "DATA"; "CAPACITY";
    "ACCESS"; "STORAGECLASS"; "VOLUMEATTRIBUTESCLASS"; "PROVISIONER";
    "RECLAIMPOLICY"; "VOLUMEBINDINGMODE"; "ALLOWVOLUMEEXPANSION";
    "COMPLETIONS"; "DURATION"; "SCHEDULE"; "SUSPEND"; "ACTIVE";
    "LAST"; "DESIRED"; "CURRENT"; "UP-TO-DATE"; "AVAILABLE";
    "REFERENCE"; "TARGETS"; "MINPODS"; "MAXPODS"; "REPLICAS" ].

(** [func (m *Merger) formatLine(cluster, line string) string].
    The first [Sprintf] writes the format [%-Ws   %s] with
    [W = m.clusterColumnWidth] in decimal, the second applies it:
    [cluster] padded on the right to [W] runes, three spaces, [line].
    This is the documented meaning of the verb, and what [fmt] computes
    for every width it accepts ([fmt.widthAccepted], below 10,000,010);
    for a larger width [fmt] returns an error text instead
    ([fmt.SprintfPadded]), which this definition does not follow: a
    statement about the padding of an arbitrary list of results carries
    the bound. *)
Definition formatLine (m : Merger) (cluster line : string) : string :=
  fmt.padRight (clusterColumnWidth m) cluster +:+ "   " +:+ line.

(** The loop of [MergeResults] that computes the column width. *)
Definition columnWidth (results : list Result) : nat :=
  fold_left
    (fun width r =>
       if (width <? String.length (Context r))%nat
       then String.length (Context r) else width)
    results 7.

(** The two variables the main loop of [MergeResults] updates: the
    [strings.Builder] and [headerPrinted]. *)
Record MergeState : Type := mkMergeState {
  written : string;
  headerPrinted : bool
}.

Definition WriteString (st : MergeState) (s : string) : MergeState :=
  {| written := written st +:+ s; headerPrinted := headerPrinted st |}.

Section Merge.
Variable unicodeUpper : string -> string.

(** [func (m *Merger) isHeaderLine(line string) bool]. *)
Definition isHeaderLine (m : Merger) (line : string) : bool :=
  let upperLine := strings.ToUpper unicodeUpper line in
  let matchCount :=
    fold_left
      (fun count keyword =>
         if strings.Contains upperLine keyword then S count else count)
      headerKeywords 0 in
  (2 <=? matchCount)%nat.

(** The body of the inner loop [for i, line := range lines]. *)
Definition mergeLine (m : Merger) (showHeaders : bool) (result : Result)
    (st : MergeState) (i : nat) (line : string) : MergeState :=
  if String.eqb line "" then st
  else
    let isHeader := (i =? 0)%nat && isHeaderLine m line in
    if isHeader then
      if negb (headerPrinted st) && showHeaders then
        let st := WriteString st (formatLine m "CLUSTER" line) in
        let st := WriteString st strings.nl in
        {| written := written st; headerPrinted := true |}
      else st
    else
      let st := WriteString st (formatLine m (Context result) line) in
      WriteString st strings.nl.

(** The inner loop, from index [i] on. *)
Fixpoint mergeLines (m : Merger) (showHeaders : bool) (result : Result)
    (i : nat) (lines : list string) (st : MergeState) : MergeState :=
  match lines with
  | [] => st
  | line :: rest =>
      mergeLines m showHeaders result (S i) rest
                 (mergeLine m showHeaders result st i line)
  end.

(** The body of the outer loop [for _, result := range results]. *)
Definition mergeResult (m : Merger) (showHeaders : bool)
    (st : MergeState) (result : Result) : MergeState :=
  match Error result with
  | Some e =>
      WriteString st
        ("# Error from cluster " +:+ Context result +:+ ": "
         +:+ errorMessage e +:+ strings.nl)
  | None =>
      if String.eqb (Output result) "" then st
      else
        let lines :=
          strings.Split (strings.TrimSuffix (Output result) strings.nl)
                        strings.LF in
        if (length lines =? 0)%nat then st
        else mergeLines m showHeaders result 0 lines st
  end.

(** [func (m *Merger) MergeResults(results []executor.Result,
    showHeaders bool) string]. The method stores the column width in
    its receiver: the merger after the call is returned with the
    string. *)
Definition MergeResults (m : Merger) (results : list Result)
    (showHeaders : bool) : Merger * string :=
  if (length results =? 0)%nat then (m, "")
  else
    let m := {| clusterColumnWidth := columnWidth results |} in
    let st :=
      fold_left (mergeResult m showHeaders) results
                {| written := ""; headerPrinted := false |} in
    (m, written st).

End Merge.

(** The body of the loop of [MergeNonTableOutput], on the builder. *)
Definition writeBlock (out : string) (result : Result) : string :=
  match Error result with
  | Some e =>
      out +:+ ("=== Cluster: " +:+ Context result +:+ " (Error: "
               +:+ errorMessage e +:+ ") ===" +:+ strings.nl)
  | None =>
      let out :=
        out +:+ ("=== Cluster: " +:+ Context result +:+ " ==="
                 +:+ strings.nl) in
      let out := out +:+ Output result in
      let out :=
        if negb (strings.HasSuffix (Output result) strings.nl)
        then out +:+ strings.nl else out in
      out +:+ strings.nl
  end.

(** [func (m *Merger) MergeNonTableOutput(results []executor.Result)
    string]. *)
Definition MergeNonTableOutput (m : Merger) (results : list Result)
    : string :=
  fold_left writeBlock results "".

End output.

(** ** Package [config] (pkg/config) *)

Module config.

(** [type MultiKubeConfig struct]. *)
Record MultiKubeConfig : Type := mkMultiKubeConfig {
  Contexts : list string;
  KubeConfig : string
}.

(** The loop [for _, ctx := range c.Contexts { if ctx == context {
    return ... } }] that [AddContext] and [HasContext] both run: whether
    it reaches the [return] of its body. *)
Fixpoint found (contexts : list string) (context : string) : bool :=
  match contexts with
  | [] => false
  | ctx :: rest => if String.eqb ctx context then true else found rest context
  end.

(** [func (c *MultiKubeConfig) AddContext(context string) bool]: the
    configuration after the call, and the result. *)
Definition AddContext (c : MultiKubeConfig) (context : string)
    : MultiKubeConfig * bool :=
  if found (Contexts c) context then (c, false)
  else ({| Contexts := Contexts c ++ [context];
           KubeConfig := KubeConfig c |}, true).

(** The loop [for i, ctx := range c.Contexts] of [RemoveContext]: the
    index at which it finds [context], counting from [i]. *)
Fixpoint firstIndex (contexts : list string) (context : string) (i : nat)
    : option nat :=
  match contexts with
  | [] => None
  | ctx :: rest =>
      if String.eqb ctx context then Some i
      else firstIndex rest context (S i)
  end.

(** [func (c *MultiKubeConfig) RemoveContext(context string) bool]:
    [append(c.Contexts[:i], c.Contexts[i+1:]...)] at the first index
    found. *)
Definition RemoveContext (c : MultiKubeConfig) (context : string)
    : MultiKubeConfig * bool :=
  match firstIndex (Contexts c) context 0 with
  | Some i =>
      ({| Contexts := take i (Contexts c) ++ drop (S i) (Contexts c);
          KubeConfig := KubeConfig c |}, true)
  | None => (c, false)
  end.

(** [func (c *MultiKubeConfig) HasContext(context string) bool]. *)
Definition HasContext (c : MultiKubeConfig) (context : string) : bool :=
  found (Contexts c) context.

(** [func (c *MultiKubeConfig) Clear()]. *)
Definition Clear (c : MultiKubeConfig) : MultiKubeConfig :=
  {| Contexts := []; KubeConfig := KubeConfig c |}.

(** [func (c *MultiKubeConfig) SetContexts(contexts []string)]. *)
Definition SetContexts (c : MultiKubeConfig) (contexts : list string)
    : MultiKubeConfig :=
  {| Contexts := contexts; KubeConfig := KubeConfig c |}.

End config.

(** ** Package [cmd]: the command line *)

Module cmd.

(** [nonTableCommands]. *)
Definition nonTableCommands : list string :=
  ["logs"; "describe"; "explain"; "edit"; "exec"; "attach";
   "port-forward"; "proxy"; "cp"].

(** The map [ourFlags] of [separateArgs]. *)
Definition ourFlags : gmap string bool :=
  <["--kubeconfig" := true]>
    (<["--contexts" := true]>
       (<["--all-contexts" := true]>
          (<["--timeout" := true]> ∅))).

(** The loop [for flag := range ourFlags] with its [break], run over the
    keys in the order [order]: Go leaves the order of a map iteration
    open. *)
Fixpoint flagLoop (order : list string) (arg : string) : bool :=
  match order with
  | [] => false
  | flag :: rest =>
      if String.eqb arg flag || strings.HasPrefix arg (flag +:+ "=")
      then true
      else flagLoop rest arg
  end.

(** [isOurFlag] after the loop, for one order of the keys. *)
Definition isOurFlag (arg : string) : bool :=
  flagLoop (map_to_list ourFlags).*1 arg.

(** The loop [for i < len(args)] of [separateArgs], on the arguments from
    index [i] on, with the two slices built so far. A flag of ours written
    without [=] takes the next argument with it when there is one and it
    does not begin with a dash. *)
Fixpoint separateLoop (args ourArgs kubectlArgs : list string)
    : list string * list string :=
  match args with
  | [] => (ourArgs, kubectlArgs)
  | arg :: rest =>
      if isOurFlag arg then
        let ourArgs := ourArgs ++ [arg] in
        match rest with
        | next :: rest' =>
            if negb (strings.Contains arg "=")
               && negb (strings.HasPrefix next "-")
            then separateLoop rest' (ourArgs ++ [next]) kubectlArgs
            else separateLoop rest ourArgs kubectlArgs
        | [] => separateLoop rest ourArgs kubectlArgs
        end
      else separateLoop rest ourArgs (kubectlArgs ++ [arg])
  end.

(** [func separateArgs(args []string) (ourArgs []string, kubectlArgs
    []string)]. *)
Definition separateArgs (args : list string) : list string * list string :=
  separateLoop args [] [].

(** The flag variables of the package: [kubeConfig], [contexts],
    [allContexts], [timeout]. *)
Record Flags : Type := mkFlags {
  kubeConfig : string;
  contexts : list string;
  allContexts : bool;
  timeout : Z
}.

(** What [runMultiKubectl] reads from the machine before it runs kubectl:
    [cluster.NewManager] (a manager, or the message of its error),
    [config.Exists()] and [config.Load()] (a configuration, or the message
    of its error). *)
Record Files : Type := mkFiles {
  NewManager : string -> cluster.Manager + string;
  Exists : bool;
  Load : config.MultiKubeConfig + string
}.

(** How far [runMultiKubectl] gets before it runs kubectl: it prints the
    help and returns, or writes a message to standard error and exits
    with status 1, or goes on with the contexts and the executor. *)
Inductive Plan : Type :=
| Help
| Abort (stderr : string)
| Dispatch (targetContexts : list string) (exec : executor.Executor).

(** [runMultiKubectl], down to [executor.NewExecutor]. *)
Definition plan (flags : Flags) (files : Files) (args : list string) : Plan :=
  if (length args =? 0)%nat then Help
  else
    match NewManager files (kubeConfig flags) with
    | inr err => Abort ("Error loading kubeconfig: " +:+ err +:+ strings.nl)
    | inl mgr =>
        let chosen : list string + string :=
          if (0 <? length (contexts flags))%nat then
            inl (cluster.FilterContexts mgr (contexts flags))
          else if allContexts flags then inl (cluster.GetContexts mgr)
          else if Exists files then
            match Load files with
            | inr err =>
                inr ("Error loading multikube config: " +:+ err
                     +:+ strings.nl)
            | inl cfg =>
                if (0 <? length (config.Contexts cfg))%nat
                then inl (cluster.FilterContexts mgr (config.Contexts cfg))
                else inl (cluster.GetContexts mgr)
            end
          else inl (cluster.GetContexts mgr) in
        match chosen with
        | inr message => Abort message
        | inl targetContexts =>
            if (length targetContexts =? 0)%nat
            then Abort ("No valid contexts found" +:+ strings.nl)
            else Dispatch targetContexts
                   (executor.NewExecutor (cluster.kubeConfigPath mgr)
                                         (timeout flags))
        end
    end.

(** The loop over [nonTableCommands] that sets [isNonTableCmd]. *)
Fixpoint nonTableLoop (commands args : list string) : bool :=
  match commands with
  | [] => false
  | nonTableCmd :: rest =>
      if (0 <? length args)%nat
         && match args with
            | first :: _ => String.eqb first nonTableCmd
            | [] => false
            end
      then true
      else nonTableLoop rest args
  end.

Definition isNonTableCmd (args : list string) : bool :=
  nonTableLoop nonTableCommands args.

(** The loop that ends [runMultiKubectl]: [os.Exit(1)] at the first
    result with an error; status 0 when the function returns. *)
Fixpoint exitStatus (results : list executor.Result) : Z :=
  match results with
  | [] => 0
  | r :: rest =>
      match executor.Error r with
      | Some _ => 1
      | None => exitStatus rest
      end
  end.

(** [runMultiKubectl] from the results of [Execute] on: what it prints on
    standard output and the exit status of the process. *)
Definition report (unicodeUpper : string -> string) (args : list string)
    (results : list executor.Result) : string * Z :=
  let merger := output.NewMerger in
  let mergedOutput :=
    if isNonTableCmd args then output.MergeNonTableOutput merger results
    else (output.MergeResults unicodeUpper merger results true).2 in
  (mergedOutput, exitStatus results).

(** The map [availableContexts] that [runConfigAdd] builds from
    [mgr.GetContexts()]. *)
Definition availableOf (names : list string) : gmap string bool :=
  fold_left (fun available ctx => <[ctx := true]> available) names ∅.

(** The variables of the loop of [runConfigAdd]: the configuration, the
    counter [added], and what was printed on standard output and on
    standard error. *)
Record AddState : Type := mkAddState {
  addCfg : config.MultiKubeConfig;
  added : nat;
  addOut : string;
  addErr : string
}.

(** The body of [for _, ctx := range args] in [runConfigAdd]. *)
Definition configAddStep (available : gmap string bool) (st : AddState)
    (ctx : string) : AddState :=
  if negb (cluster.mapIndex available ctx) then
    {| addCfg := addCfg st; added := added st; addOut := addOut st;
       addErr := addErr st +:+ ("Warning: context '" +:+ ctx
                 +:+ "' not found in kubeconfig, skipping" +:+ strings.nl) |}
  else
    let '(cfg, ok) := config.AddContext (addCfg st) ctx in
    if ok then
      {| addCfg := cfg; added := S (added st);
         addOut := addOut st +:+ ("Added context: " +:+ ctx +:+ strings.nl);
         addErr := addErr st |}
    else
      {| addCfg := cfg; added := added st;
         addOut := addOut st +:+ ("Context already configured: " +:+ ctx
                   +:+ strings.nl);
         addErr := addErr st |}.

(** [runConfigAdd] from the loaded manager and configuration to the end
    of its loop. *)
Definition configAddLoop (mgr : cluster.Manager)
    (cfg : config.MultiKubeConfig) (args : list string) : AddState :=
  fold_left (configAddStep (availableOf (cluster.GetContexts mgr))) args
            {| addCfg := cfg; added := 0; addOut := ""; addErr := "" |}.

(** The configuration [runConfigAdd] hands to [config.Save], when it
    does: only [if added > 0]. *)
Definition configAddSaved (st : AddState) : option config.MultiKubeConfig :=
  if (0 <? added st)%nat then Some (addCfg st) else None.

(** The variables of the loop of [runConfigRemove]. *)
Record RemoveState : Type := mkRemoveState {
  removeCfg : config.MultiKubeConfig;
  removed : nat;
  removeOut : string
}.

(** The body of [for _, ctx := range args] in [runConfigRemove]. *)
Definition configRemoveStep (st : RemoveState) (ctx : string) : RemoveState :=
  let '(cfg, ok) := config.RemoveContext (removeCfg st) ctx in
  if ok then
    {| removeCfg := cfg; removed := S (removed st);
       removeOut := removeOut st +:+ ("Removed context: " +:+ ctx
                    +:+ strings.nl) |}
  else
    {| removeCfg := cfg; removed := removed st;
       removeOut := removeOut st +:+ ("Context not found in config: " +:+ ctx
                    +:+ strings.nl) |}.

Definition configRemoveLoop (cfg : config.MultiKubeConfig)
    (args : list string) : RemoveState :=
  fold_left configRemoveStep args
            {| removeCfg := cfg; removed := 0; removeOut := "" |}.

Definition configRemoveSaved (st : RemoveState)
    : option config.MultiKubeConfig :=
  if (0 <? removed st)%nat then Some (removeCfg st) else None.

(** The inner loop [for _, available := range allContexts] of
    [runConfigSelect], with its [break]: whether it appends [ctx]. *)
Fixpoint isAvailable (allContexts : list string) (ctx : string) : bool :=
  match allContexts with
  | [] => false
  | available :: rest =>
      if String.eqb ctx available then true else isAvailable rest ctx
  end.

(** The slice [defaultSelected] of [runConfigSelect]. *)
Definition defaultSelected (configExists : bool)
    (cfg : config.MultiKubeConfig) (allContexts : list string)
    : list string :=
  if configExists && (0 <? length (config.Contexts cfg))%nat then
    fold_left
      (fun selected ctx =>
         if isAvailable allContexts ctx then selected ++ [ctx] else selected)
      (config.Contexts cfg) []
  else [].

End cmd.

(** ** Notions used in the statements *)

(** The lines of a result's output as [MergeResults] sees them. *)
Definition outputLines (r : executor.Result) : list string :=
  strings.Split (strings.TrimSuffix (executor.Output r) strings.nl) strings.LF.

(** The concatenation of a list of strings, in order. *)
Definition concatStrings (ss : list string) : string :=
  fold_right String.append "" ss.

(** A data row of the merged table, with its line end. *)
Definition dataRow (m : output.Merger) (cluster line : string) : string :=
  output.formatLine m cluster line +:+ strings.nl.

(** The line a failed result contributes to the merged table. *)
Definition errorLine (cluster : string) (e : executor.error) : string :=
  "# Error from cluster " +:+ cluster +:+ ": "
  +:+ executor.errorMessage e +:+ strings.nl.

(** The output a successful result contributes to the grouped merge: the
    captured text, closed by a newline when it does not end in one. *)
Definition closedOutput (out : string) : string :=
  if strings.HasSuffix out strings.nl then out else out +:+ strings.nl.

(** [r] with its output replaced by [f r] when its error is not nil, and
    [r] itself otherwise. *)
Definition overwriteErrored (f : executor.Result -> string)
    (r : executor.Result) : executor.Result :=
  match executor.Error r with
  | Some _ =>
      {| executor.Context := executor.Context r;
         executor.Output := f r;
         executor.Error := executor.Error r;
         executor.ExitCode := executor.ExitCode r |}
  | None => r
  end.

(** White space as [unicode.IsSpace] has it on bytes below 0x80: tab, line
    feed, vertical tab, form feed, carriage return, space. *)
Definition isSpaceByte (c : ascii) : bool :=
  let n := N_of_ascii c in (((9 <=? n) && (n <=? 13)) || (n =? 32))%N.

(** The text of the specification, "trimmed of trailing whitespace": the
    string without its longest suffix of white space. *)
Fixpoint spec_trimTrailingSpace (s : string) : string :=
  match s with
  | "" => ""
  | String c s' =>
      match spec_trimTrailingSpace s' with
      | "" => if isSpaceByte c then "" else String c ""
      | t => String c t
      end
  end.

(** How os/exec reports a child that was killed when the deadline of its
    context passed: [Wait] returns the state of the child as for any child
    that did not succeed, an [*exec.ExitError], whose [ExitCode()] is -1
    for a child ended by a signal. *)
Definition killedAtDeadline : executor.error :=
  executor.ExitError (-1) "signal: killed".

(** The invariant of an execution of [Execute]: the slice keeps its
    length, and every goroutine that is no longer running has left, at its
    own index, a result for its own context. *)
Definition positional (contexts : list string) (st : executor.ExecState)
    : Prop :=
  length (executor.results st) = length contexts
  /\ forall i context,
       contexts !! i = Some context -> i ∉ executor.running st ->
       exists r, executor.results st !! i = Some r
                 /\ executor.Context r = context.

(** A world in which every run gives the same outcome. *)
Definition constRunner (o : executor.RunOutcome) : executor.Runner :=
  fun _ _ _ => o.

(** The state of the main loop of [MergeResults] with nothing written
    yet, and a state with [w] written before what it holds. *)
Definition fresh (printed : bool) : output.MergeState :=
  {| output.written := ""; output.headerPrinted := printed |}.

Definition prepend (w : string) (st : output.MergeState) : output.MergeState :=
  {| output.written := w +:+ output.written st;
     output.headerPrinted := output.headerPrinted st |}.

(** The data rows of cluster [cluster] for the lines [ls]: one row for
    each line that is not empty, in order. *)
Definition dataRows (m : output.Merger) (cluster : string)
    (ls : list string) : string :=
  concatStrings (dataRow m cluster <$> filter (fun l => l <> "") ls).

(** Whether the first line of the output of [r] is taken for a header. *)
Definition hasHeader (unicodeUpper : string -> string) (m : output.Merger)
    (r : executor.Result) : bool :=
  match outputLines r with
  | l0 :: _ => output.isHeaderLine unicodeUpper m l0
  | [] => false
  end.

(** What a successful result adds to the merged table when [printed]
    tells whether a header was written before: its first line as the
    header of the table when it is taken for a header, none was written
    yet and headers are shown; a header that is not written is dropped;
    every other line that is not empty is a data row. *)
Definition tableRows (unicodeUpper : string -> string) (m : output.Merger)
    (showHeaders printed : bool) (r : executor.Result) : string :=
  match outputLines r with
  | [] => ""
  | l0 :: rest =>
      if output.isHeaderLine unicodeUpper m l0 then
        (if negb printed && showHeaders
         then output.formatLine m "CLUSTER" l0 +:+ strings.nl else "")
        +:+ dataRows m (executor.Context r) rest
      else dataRows m (executor.Context r) (l0 :: rest)
  end.

(** The block of one result in the grouped merge: for a failed result
    the delimiter line alone; for a successful one the delimiter line, the
    output closed by a newline, and one empty line. *)
Definition groupBlock (r : executor.Result) : string :=
  match executor.Error r with
  | Some e =>
      "=== Cluster: " +:+ executor.Context r +:+ " (Error: "
      +:+ executor.errorMessage e +:+ ") ===" +:+ strings.nl
  | None =>
      "=== Cluster: " +:+ executor.Context r +:+ " ===" +:+ strings.nl
      +:+ closedOutput (executor.Output r) +:+ strings.nl
  end.

(** A stand-in for the Unicode case mapping where a concrete one is
    needed: it leaves the string as it is. Only strings with a byte of
    0x80 or more reach it. *)
Definition noUnicodeUpper (s : string) : string := s.

(** What a result adds to the merged table: its error line when it
    failed, its table rows when it succeeded. *)
Definition contribution (unicodeUpper : string -> string) (m : output.Merger)
    (showHeaders printed : bool) (r : executor.Result) : string :=
  match executor.Error r with
  | Some e => errorLine (executor.Context r) e
  | None => tableRows unicodeUpper m showHeaders printed r
  end.

(** The contribution of a result that writes no header: error line or
    data rows, a first line taken for a header being dropped. *)
Definition rowsOnly (unicodeUpper : string -> string) (m : output.Merger)
    (r : executor.Result) : string :=
  contribution unicodeUpper m true true r.

(** Whether [r] succeeded with an output whose first line is taken for a
    header. *)
Definition bringsHeader (unicodeUpper : string -> string) (m : output.Merger)
    (r : executor.Result) : bool :=
  match executor.Error r with
  | Some _ => false
  | None => hasHeader unicodeUpper m r
  end.

(** The merged table of a list of results, by recursion on the list,
    from the point where [printed] tells whether the header was
    written. *)
Fixpoint tableFrom (unicodeUpper : string -> string) (m : output.Merger)
    (showHeaders printed : bool) (rs : list executor.Result) : string :=
  match rs with
  | [] => ""
  | r :: rest =>
      contribution unicodeUpper m showHeaders printed r
      +:+ tableFrom unicodeUpper m showHeaders
            (printed || (bringsHeader unicodeUpper m r && showHeaders)) rest
  end.

(** The invariant of an execution of [Execute] on whole results: every
    goroutine that is no longer running has left, at its own index, what
    [executeOne] returns for its own context in some world. *)
Definition completed (e : executor.Executor) (contexts args : list string)
    (st : executor.ExecState) : Prop :=
  length (executor.results st) = length contexts
  /\ forall i context,
       contexts !! i = Some context -> i ∉ executor.running st ->
       exists run,
         executor.results st !! i
         = Some (executor.executeOne run e context args).

(** What the loop of [runConfigAdd] keeps true, for a start from [cfg]
    and arguments among [args]. *)
Definition addInvariant (mgr : cluster.Manager) (cfg : config.MultiKubeConfig)
    (args : list string) (st : cmd.AddState) : Prop :=
  exists new,
    config.Contexts (cmd.addCfg st) = config.Contexts cfg ++ new
    /\ cmd.added st = length new
    /\ NoDup new
    /\ Forall (fun ctx => ctx ∈ args /\ ctx ∈ cluster.GetContexts mgr
                          /\ ctx ∉ config.Contexts cfg) new
    /\ config.KubeConfig (cmd.addCfg st) = config.KubeConfig cfg.

(** A kubeconfig with the three contexts east, west and north, for the
    concrete cases. *)
Definition sampleEntry (name : string) : cluster.ContextEntry :=
  {| cluster.Name := name;
     cluster.EntryContext :=
       {| cluster.Cluster := name; cluster.User := "admin";
          cluster.Namespace := "" |} |}.

Definition sampleManager : cluster.Manager :=
  {| cluster.kubeConfigPath := "/home/u/.kube/config";
     cluster.config :=
       {| cluster.APIVersion := "v1"; cluster.Kind := "Config";
          cluster.CurrentContext := "east";
          cluster.Contexts :=
            [sampleEntry "east"; sampleEntry "west"; sampleEntry "north"] |} |}.

(** A machine on which the kubeconfig loads as [sampleManager] and
    there is no file ~/.multikube/config. *)
Definition sampleFiles : cmd.Files :=
  {| cmd.NewManager := fun _ => inl sampleManager;
     cmd.Exists := false;
     cmd.Load := inl {| config.Contexts := []; config.KubeConfig := "" |} |}.

(** A successful result with the given output. *)
Definition okResult (context out : string) : executor.Result :=
  {| executor.Context := context; executor.Output := out;
     executor.Error := None; executor.ExitCode := 0 |}.

(** The number of bytes [c] in [s]; for the line feed, the number of line
    ends in [s]. *)
Fixpoint countByte (c : ascii) (s : string) : nat :=
  match s with
  | "" => 0
  | String d s' => (if Ascii.eqb d c then 1 else 0) + countByte c s'
  end.

(** * Properties *)

(** ** Strings *)

Lemma append_nil_l (t : string) : "" +:+ t = t.
Proof. reflexivity. Qed.

Lemma append_cons (c : ascii) (s t : string) :
  String c s +:+ t = String c (s +:+ t).
Proof. reflexivity. Qed.

Lemma append_nil_r (s : string) : s +:+ "" = s.
Proof.
  induction s as [|c s IH]; [reflexivity|].
  by rewrite append_cons, IH.
Qed.

Lemma append_assoc (s t u : string) : (s +:+ t) +:+ u = s +:+ (t +:+ u).
Proof.
  induction s as [|c s IH]; [reflexivity|].
  by rewrite !append_cons, IH.
Qed.

(** On a string of ASCII bytes a rune is a byte: the width [fmt] pads to
    is then a width in bytes. *)
Lemma RuneCountInString_ascii (s : string) :
  strings.isASCII s = true -> utf8.RuneCountInString s = String.length s.
Proof.
  unfold utf8.RuneCountInString.
  induction s as [|c s IH]; intros Hascii; [reflexivity|].
  cbn [strings.isASCII] in Hascii. apply andb_true_iff in Hascii as [Hc Hs].
  cbn [utf8.runeCountFrom String.length]. unfold utf8.runeSize. rewrite Hc.
  cbn [Nat.sub]. by rewrite IH.
Qed.

Lemma length_append (s t : string) :
  String.length (s +:+ t) = String.length s + String.length t.
Proof.
  induction s as [|c s IH]; [reflexivity|].
  rewrite append_cons. cbn [String.length]. by rewrite IH.
Qed.

Lemma length_spaces (n : nat) : String.length (fmt.spaces n) = n.
Proof. induction n as [|n IH]; [reflexivity|]. cbn. by rewrite IH. Qed.

Lemma padRight_ascii_length (width : nat) (s : string) :
  strings.isASCII s = true ->
  String.length (fmt.padRight width s) = width `max` String.length s.
Proof.
  intros Hascii. unfold fmt.padRight.
  rewrite length_append, length_spaces, RuneCountInString_ascii by done.
  lia.
Qed.

(** The library functions on small inputs. *)
Example Split_trailing_newline :
  strings.Split ("a" +:+ strings.nl +:+ "b" +:+ strings.nl) strings.LF
  = ["a"; "b"; ""].
Proof. reflexivity. Qed.

Example Split_empty : strings.Split "" strings.LF = [""].
Proof. reflexivity. Qed.

Example TrimSuffix_once :
  strings.TrimSuffix ("a" +:+ strings.nl +:+ strings.nl) strings.nl
  = "a" +:+ strings.nl.
Proof. reflexivity. Qed.

Example TrimSuffix_absent : strings.TrimSuffix "abc" strings.nl = "abc".
Proof. reflexivity. Qed.

Example ToUpper_ascii (unicodeUpper : string -> string) :
  strings.ToUpper unicodeUpper "Name ready-2" = "NAME READY-2".
Proof. reflexivity. Qed.

Example padRight_short : fmt.padRight 7 "dev" = "dev    ".
Proof. reflexivity. Qed.

Example padRight_long : fmt.padRight 7 "prod-east-1" = "prod-east-1".
Proof. reflexivity. Qed.

(** ** The executor *)

Section ExecutorFacts.
Import executor.
Variable e : Executor.
Variables contexts args : list string.

Lemma executeOne_Context run context :
  Context (executeOne run e context args) = context.
Proof.
  unfold executeOne.
  destruct (err (run _ _ _)) as [[s|code state|msg]|]; reflexivity.
Qed.

Lemma executeOne_Output run context :
  Output (executeOne run e context args)
  = stdout (run (timeout e) "kubectl" (cmdArgs e context args)).
Proof.
  unfold executeOne.
  destruct (err (run _ _ _)) as [[s|code state|msg]|]; reflexivity.
Qed.

Lemma positional_init : positional contexts (initState contexts).
Proof.
  split; simpl.
  - apply length_replicate.
  - intros i context Hi Hnot. exfalso. apply Hnot.
    apply elem_of_seq. apply lookup_lt_Some in Hi. lia.
Qed.

Lemma positional_step st st' :
  step e contexts args st st' ->
  positional contexts st -> positional contexts st'.
Proof.
  intros Hstep [Hlen Hdone].
  destruct Hstep as [st before after index context run Hrun Hctx].
  split; simpl.
  - by rewrite length_insert.
  - intros i context' Hi Hnot.
    destruct (decide (i = index)) as [->|Hne].
    + exists (executeOne run e context args). split.
      * apply list_lookup_insert_eq. rewrite Hlen.
        by apply lookup_lt_Some in Hctx.
      * rewrite executeOne_Context. congruence.
    + rewrite list_lookup_insert_ne by done.
      apply Hdone; [done|].
      rewrite Hrun. intros Hin. apply Hnot.
      apply elem_of_app in Hin as [Hin|Hin];
        [apply elem_of_app; by left|].
      apply elem_of_cons in Hin as [->|Hin];
        [done | apply elem_of_app; by right].
Qed.

Lemma positional_steps st st' :
  steps e contexts args st st' ->
  positional contexts st -> positional contexts st'.
Proof.
  induction 1 as [st|st1 st2 st3 Hstep _ IH]; [done|].
  intros Hinv. apply IH. by eapply positional_step.
Qed.

(** The goroutines may finish in any order: from a state whose running
    goroutines are those of [order], the execution that completes them
    in that order is one of the executions. *)
Lemma steps_in_order run order : forall st,
  running st ≡ₚ order ->
  Forall (fun i => i < length contexts) order ->
  steps e contexts args st
    {| running := [];
       results :=
         fold_left
           (fun rs index =>
              match contexts !! index with
              | Some context => <[index := executeOne run e context args]> rs
              | None => rs
              end)
           order (results st) |}.
Proof.
  induction order as [|i order IH]; intros st Hperm Hlt.
  - apply Permutation_nil_r in Hperm. destruct st as [rn rs].
    simpl in *. subst rn. apply steps_refl.
  - apply Permutation_cons_inv_r in Hperm
      as (before & after & Hrun & Hperm).
    inversion Hlt as [|? ? Hi Hlt']; subst.
    destruct (lookup_lt_is_Some_2 contexts i Hi) as [context Hctx].
    eapply steps_step.
    + by apply (step_done e contexts args st before after i context run).
    + simpl. rewrite Hctx.
      specialize (IH {| running := before ++ after;
                        results := <[i := executeOne run e context args]>
                                     (results st) |}).
      simpl in IH. apply IH; [by symmetry | done].
Qed.

Lemma Execute_in_order_returns run order :
  order ≡ₚ seq 0 (length contexts) ->
  Execute_returns e contexts args
    (Execute_in_order run e contexts args order).
Proof.
  intros Hperm.
  exists {| running := [];
            results := Execute_in_order run e contexts args order |}.
  split; [|done].
  apply (steps_in_order run order (initState contexts)).
  - simpl. by symmetry.
  - apply Forall_forall. intros i Hi.
    rewrite Hperm in Hi. apply elem_of_seq in Hi. lia.
Qed.

End ExecutorFacts.

Section ExecutorClaims.
Import executor.
Variable e : Executor.
Variables contexts args : list string.

(** C1. Whatever the order in which the goroutines of [Execute] finish,
    and whatever the runs answer, the slice [Execute] returns has the
    length of [contexts], and its element at index [i] carries the
    context [contexts[i]]. *)
Theorem Execute_positional (rs : list Result) :
  Execute_returns e contexts args rs ->
  length rs = length contexts
  /\ forall i context,
       contexts !! i = Some context ->
       exists r, rs !! i = Some r /\ Context r = context.
Proof.
  intros (st & Hsteps & Hrun & <-).
  pose proof (positional_steps e contexts args _ _ Hsteps
                (positional_init contexts)) as [Hlen Hdone].
  split; [done|].
  intros i context Hi. apply Hdone; [done|].
  rewrite Hrun. apply not_elem_of_nil.
Qed.

(** C3, as the code has it. When [cmd.Run] reports an [*exec.ExitError]
    (the child ran and did not succeed), the error of the result is the
    captured standard error as it was written, with nothing trimmed, and
    [ExitCode] is the exit code of the process. *)
Theorem executeOne_exit_error (run : Runner) (context : string)
    (code : Z) (state : string) :
  err (run (timeout e) "kubectl" (cmdArgs e context args))
    = Some (ExitError code state) ->
  let o := run (timeout e) "kubectl" (cmdArgs e context args) in
  let r := executeOne run e context args in
  Error r = Some (errorString (stderr o))
  /\ errorMessage <$> Error r = Some (stderr o)
  /\ ExitCode r = code.
Proof.
  intros Herr o r. subst o r. unfold executeOne. rewrite Herr.
  by simpl.
Qed.

(** C8, as the code has it. [executeOne] has no case for a deadline: a
    child killed at the deadline is reported by [cmd.Run] as an
    [*exec.ExitError], so the result is built by the case of the nonzero
    exit: its error is the captured standard error, the very value a
    child that exited by itself with the same standard error gives, and
    its [ExitCode] is -1. That error is none of the errors passed
    through from [cmd.Run], as a failure to start is. *)
Theorem executeOne_deadline (run : Runner) (context : string) :
  err (run (timeout e) "kubectl" (cmdArgs e context args))
    = Some killedAtDeadline ->
  let o := run (timeout e) "kubectl" (cmdArgs e context args) in
  let r := executeOne run e context args in
  Error r = Some (errorString (stderr o))
  /\ ExitCode r = (-1)%Z
  /\ (forall code state,
        Error r
        = Error (executeOne
                   (constRunner {| stdout := stdout o; stderr := stderr o;
                                   err := Some (ExitError code state) |})
                   e context args))
  /\ (forall msg, Error r <> Some (otherError msg))
  /\ (forall msg,
        Error (executeOne
                 (constRunner {| stdout := stdout o; stderr := stderr o;
                                 err := Some (otherError msg) |})
                 e context args)
        = Some (otherError msg)).
Proof.
  intros Herr o r. subst o r. unfold executeOne, killedAtDeadline in *.
  rewrite Herr. simpl. repeat split; done.
Qed.

(** C10. Whatever [cmd.Run] reports (success, a nonzero exit, a failure
    to start, a kill at the deadline), the [Output] of the result is the
    captured standard output; in particular a result with an error
    carries the output written before the failure. *)
Theorem executeOne_Output_unconditional (run : Runner) (context : string) :
  Output (executeOne run e context args)
  = stdout (run (timeout e) "kubectl" (cmdArgs e context args)).
Proof. apply executeOne_Output. Qed.

End ExecutorClaims.

(** A concrete run of two contexts, the second goroutine finishing
    first. *)
Lemma Execute_positional_witness :
  let e := executor.NewExecutor "" 30000000000 in
  let run := constRunner {| executor.stdout := "ok"; executor.stderr := "";
                            executor.err := None |} in
  let rs := executor.Execute_in_order run e ["east"; "west"] ["get"; "pods"]
              [1; 0] in
  executor.Execute_returns e ["east"; "west"] ["get"; "pods"] rs
  /\ length rs = 2
  /\ forall i context,
       ["east"; "west"] !! i = Some context ->
       exists r, rs !! i = Some r /\ executor.Context r = context.
Proof.
  intros e run rs.
  assert (Hret : executor.Execute_returns e ["east"; "west"] ["get"; "pods"] rs).
  { apply (Execute_in_order_returns e ["east"; "west"] ["get"; "pods"] run [1; 0]).
    apply perm_swap. }
  split; [exact Hret|].
  exact (Execute_positional e ["east"; "west"] ["get"; "pods"] rs Hret).
Defined.

(** C3 as stated fails: kubectl ends its message with a newline, and the
    error of the result keeps it. *)
Lemma executeOne_stderr_not_trimmed :
  let e := executor.NewExecutor "" 30000000000 in
  let o := {| executor.stdout := "";
              executor.stderr := "boom" +:+ strings.nl;
              executor.err := Some (executor.ExitError 1 "exit status 1") |} in
  let r := executor.executeOne (constRunner o) e "east" ["get"; "pods"] in
  executor.errorMessage <$> executor.Error r = Some ("boom" +:+ strings.nl)
  /\ spec_trimTrailingSpace (executor.stderr o) = "boom"
  /\ executor.errorMessage <$> executor.Error r
     <> Some (spec_trimTrailingSpace (executor.stderr o)).
Proof. vm_compute. repeat split; discriminate. Qed.

Lemma executeOne_exit_error_witness :
  let e := executor.NewExecutor "/home/u/.kube/config" 30000000000 in
  let o := {| executor.stdout := "";
              executor.stderr := "boom" +:+ strings.nl;
              executor.err := Some (executor.ExitError 1 "exit status 1") |} in
  let r := executor.executeOne (constRunner o) e "east" ["get"; "pods"] in
  executor.Error r = Some (executor.errorString ("boom" +:+ strings.nl))
  /\ executor.errorMessage <$> executor.Error r = Some ("boom" +:+ strings.nl)
  /\ executor.ExitCode r = 1%Z.
Proof.
  intros e o r.
  exact (executeOne_exit_error e ["get"; "pods"] (constRunner o) "east" 1
           "exit status 1" eq_refl).
Defined.

(** C8 as stated fails: the error of a run killed at the deadline is the
    error of a run that exited with status 1 and the same standard
    error. *)
Lemma executeOne_timeout_not_distinct :
  let e := executor.NewExecutor "" 30000000000 in
  let timedOut := {| executor.stdout := ""; executor.stderr := "";
                     executor.err := Some killedAtDeadline |} in
  let failed := {| executor.stdout := ""; executor.stderr := "";
                   executor.err := Some (executor.ExitError 1 "exit status 1") |} in
  executor.Error (executor.executeOne (constRunner timedOut) e "east" ["get"; "pods"])
  = executor.Error (executor.executeOne (constRunner failed) e "east" ["get"; "pods"]).
Proof. reflexivity. Qed.

Lemma executeOne_deadline_witness :
  let e := executor.NewExecutor "" 30000000000 in
  let o := {| executor.stdout := "NAME"; executor.stderr := "";
              executor.err := Some killedAtDeadline |} in
  let r := executor.executeOne (constRunner o) e "east" ["get"; "pods"] in
  executor.Error r = Some (executor.errorString "")
  /\ executor.ExitCode r = (-1)%Z.
Proof.
  intros e o r.
  pose proof (executeOne_deadline e ["get"; "pods"] (constRunner o) "east"
                eq_refl) as H.
  split; [exact (proj1 H) | exact (proj1 (proj2 H))].
Defined.

(** ** The cluster manager *)

Section ClusterFacts.
Import cluster.
Variable m : Manager.

Lemma fold_left_snoc {A B : Type} (f : B -> A) (l : list B) (acc : list A) :
  fold_left (fun xs b => xs ++ [f b]) l acc = acc ++ map f l.
Proof.
  revert acc. induction l as [|b l IH]; intros acc; simpl.
  - by rewrite app_nil_r.
  - rewrite IH. by rewrite <- app_assoc.
Qed.

Lemma GetContexts_names : GetContexts m = Name <$> Contexts (config m).
Proof. unfold GetContexts. by rewrite fold_left_snoc. Qed.

(** The map built by the first loop holds [true] exactly at the names
    of the entries folded in, next to what it held before. *)
Lemma fold_insert_true (entries : list ContextEntry) :
  forall (available : gmap string bool) (key : string),
    mapIndex (fold_left (fun av ctx => <[Name ctx := true]> av)
                        entries available) key = true
    <-> key ∈ (Name <$> entries) \/ mapIndex available key = true.
Proof.
  induction entries as [|ctx entries IH]; intros available key; simpl.
  - split; [by right | intros [Hin|H]; [by apply elem_of_nil in Hin | done]].
  - rewrite IH. unfold mapIndex at 1.
    destruct (decide (Name ctx = key)) as [Heq|Hne].
    + rewrite Heq, lookup_insert_eq, elem_of_cons. simpl.
      intuition congruence.
    + rewrite lookup_insert_ne by done. fold (mapIndex available key).
      rewrite elem_of_cons. intuition congruence.
Qed.

Lemma availableContexts_spec (key : string) :
  mapIndex (availableContexts m) key = true <-> key ∈ GetContexts m.
Proof.
  unfold availableContexts. rewrite fold_insert_true, GetContexts_names.
  unfold mapIndex. rewrite lookup_empty. simpl. intuition congruence.
Qed.

Lemma fold_left_keep {A : Type} (keep : A -> bool) (P : A -> Prop)
    `{!forall x, Decision (P x)} (l : list A) :
  (forall x, keep x = true <-> P x) ->
  forall acc,
    fold_left (fun xs x => if keep x then xs ++ [x] else xs) l acc
    = acc ++ filter P l.
Proof.
  intros Hkeep. induction l as [|x l IH]; intros acc; simpl.
  - by rewrite app_nil_r.
  - rewrite IH, filter_cons.
    destruct (keep x) eqn:Hx; destruct (decide (P x)) as [HP|HP].
    + by rewrite <- app_assoc.
    + apply Hkeep in Hx. contradiction.
    + apply Hkeep in HP. congruence.
    + done.
Qed.

(** C7. For a requested list that is not empty, [FilterContexts] returns
    the requested names that are among the contexts of the kubeconfig,
    in the order (and as many times as) they were requested; the other
    requested names are left out, and the result is a plain list: there
    is no error to report them. *)
Theorem FilterContexts_requested (contexts : list string) :
  contexts <> [] ->
  FilterContexts m contexts
  = filter (fun ctx => ctx ∈ GetContexts m) contexts.
Proof.
  intros Hne. unfold FilterContexts.
  destruct contexts as [|c contexts]; [done|].
  change (length (c :: contexts) =? 0)%nat with false. cbv iota.
  rewrite (fold_left_keep (mapIndex (availableContexts m))
             (fun ctx => ctx ∈ GetContexts m)).
  - done.
  - apply availableContexts_spec.
Qed.

(** C9. For the empty requested list, [FilterContexts] returns all the
    contexts of the kubeconfig, in the order of the file, and not the
    empty list. *)
Theorem FilterContexts_empty :
  FilterContexts m [] = GetContexts m
  /\ GetContexts m = Name <$> Contexts (config m).
Proof. split; [reflexivity | apply GetContexts_names]. Qed.

End ClusterFacts.

Lemma FilterContexts_requested_witness :
  let entry name :=
    {| cluster.Name := name;
       cluster.EntryContext :=
         {| cluster.Cluster := name; cluster.User := "admin";
            cluster.Namespace := "" |} |} in
  let m :=
    {| cluster.kubeConfigPath := "/home/u/.kube/config";
       cluster.config :=
         {| cluster.APIVersion := "v1"; cluster.Kind := "Config";
            cluster.CurrentContext := "east";
            cluster.Contexts := [entry "east"; entry "west"; entry "north"] |} |} in
  cluster.FilterContexts m ["north"; "nowhere"; "east"; "north"]
  = ["north"; "east"; "north"].
Proof.
  intros entry m.
  rewrite (FilterContexts_requested m ["north"; "nowhere"; "east"; "north"]);
    [|discriminate].
  vm_compute. reflexivity.
Defined.

(** ** The merger *)

Section MergerFacts.
Import executor output.
Variable unicodeUpper : string -> string.

Lemma isHeaderLine_receiver (m m' : Merger) (line : string) :
  isHeaderLine unicodeUpper m line = isHeaderLine unicodeUpper m' line.
Proof. unfold isHeaderLine. reflexivity. Qed.

Lemma isHeaderLine_empty (m : Merger) :
  isHeaderLine unicodeUpper m "" = false.
Proof. vm_compute. reflexivity. Qed.

Lemma prepend_fresh (st : MergeState) :
  prepend (written st) (fresh (headerPrinted st)) = st.
Proof.
  destruct st as [w hp]. unfold prepend, fresh. simpl.
  by rewrite append_nil_r.
Qed.

Lemma WriteString_prepend (w : string) (st : MergeState) (s : string) :
  WriteString (prepend w st) s = prepend w (WriteString st s).
Proof. unfold WriteString, prepend. simpl. by rewrite append_assoc. Qed.

(** The loops only append to the builder: what was written before does
    not change what a step writes. *)
Lemma mergeLine_prepend m sh r w st i line :
  mergeLine unicodeUpper m sh r (prepend w st) i line
  = prepend w (mergeLine unicodeUpper m sh r st i line).
Proof.
  unfold mergeLine.
  destruct (String.eqb line ""); [done|].
  destruct ((i =? 0)%nat && isHeaderLine unicodeUpper m line).
  - change (headerPrinted (prepend w st)) with (headerPrinted st).
    destruct (negb (headerPrinted st) && sh); [|done].
    rewrite !WriteString_prepend. reflexivity.
  - by rewrite !WriteString_prepend.
Qed.

Lemma mergeLines_prepend m sh r w lines : forall i st,
  mergeLines unicodeUpper m sh r i lines (prepend w st)
  = prepend w (mergeLines unicodeUpper m sh r i lines st).
Proof.
  induction lines as [|line lines IH]; intros i st; simpl; [done|].
  by rewrite mergeLine_prepend, IH.
Qed.

Lemma mergeResult_prepend m sh w st r :
  mergeResult unicodeUpper m sh (prepend w st) r
  = prepend w (mergeResult unicodeUpper m sh st r).
Proof.
  unfold mergeResult. destruct (Error r) as [e|].
  - apply WriteString_prepend.
  - destruct (String.eqb (Output r) ""); [done|].
    destruct (length _ =? 0)%nat; [done|].
    apply mergeLines_prepend.
Qed.

Lemma mergeResults_prepend m sh w rs : forall st,
  fold_left (mergeResult unicodeUpper m sh) rs (prepend w st)
  = prepend w (fold_left (mergeResult unicodeUpper m sh) rs st).
Proof.
  induction rs as [|r rs IH]; intros st; simpl; [done|].
  by rewrite mergeResult_prepend, IH.
Qed.

Lemma mergeResults_from m sh rs st :
  fold_left (mergeResult unicodeUpper m sh) rs st
  = prepend (written st)
      (fold_left (mergeResult unicodeUpper m sh) rs
                 (fresh (headerPrinted st))).
Proof. by rewrite <- mergeResults_prepend, prepend_fresh. Qed.

(** The merged table of a list, cut at one of its results: what the
    results before it wrote, what it writes itself, what the results
    after it write. *)
Lemma MergeResults_cut m pre r post sh :
  let m' := {| clusterColumnWidth := columnWidth (pre ++ r :: post) |} in
  let before := fold_left (mergeResult unicodeUpper m' sh) pre (fresh false) in
  let at_r := mergeResult unicodeUpper m' sh (fresh (headerPrinted before)) r in
  (MergeResults unicodeUpper m (pre ++ r :: post) sh).2
  = written before +:+ written at_r
    +:+ written (fold_left (mergeResult unicodeUpper m' sh) post
                           (fresh (headerPrinted at_r))).
Proof.
  intros m' before at_r. unfold MergeResults.
  destruct (length (pre ++ r :: post) =? 0)%nat eqn:Hlen.
  { apply Nat.eqb_eq in Hlen. rewrite length_app in Hlen.
    simpl in Hlen. lia. }
  fold m'. cbn [snd]. rewrite fold_left_app. cbn [fold_left].
  fold (fresh false). fold before.
  rewrite mergeResults_from.
  rewrite <- (prepend_fresh before) at 1 2.
  rewrite mergeResult_prepend. fold at_r.
  unfold prepend at 1 2. cbn [written headerPrinted].
  unfold prepend. cbn [written]. by rewrite append_assoc.
Qed.

Lemma dataRows_nil m cluster : dataRows m cluster [] = "".
Proof. reflexivity. Qed.

Lemma dataRows_cons_empty m cluster ls :
  dataRows m cluster ("" :: ls) = dataRows m cluster ls.
Proof. unfold dataRows. by rewrite filter_cons_False by (intros H; by apply H). Qed.

Lemma dataRows_cons m cluster line ls :
  line <> "" ->
  dataRows m cluster (line :: ls)
  = dataRow m cluster line +:+ dataRows m cluster ls.
Proof. intros Hne. unfold dataRows. by rewrite filter_cons_True by done. Qed.

(** After the first line, the inner loop writes one data row for each
    line that is not empty and nothing for an empty one. *)
Lemma mergeLines_data m sh r lines : forall i st,
  mergeLines unicodeUpper m sh r (S i) lines st
  = {| written := written st +:+ dataRows m (Context r) lines;
       headerPrinted := headerPrinted st |}.
Proof.
  induction lines as [|line lines IH]; intros i st; cbn [mergeLines].
  - rewrite dataRows_nil, append_nil_r. by destruct st.
  - rewrite IH. unfold mergeLine.
    destruct (String.eqb_spec line "") as [->|Hne].
    + by rewrite dataRows_cons_empty.
    + cbn [Nat.eqb andb]. rewrite dataRows_cons by done.
      unfold WriteString, dataRow. cbn [written headerPrinted].
      by rewrite !append_assoc.
Qed.

(** The whole contribution of a successful result. *)
Lemma mergeResult_success m sh st r :
  Error r = None ->
  mergeResult unicodeUpper m sh st r
  = {| written :=
         written st +:+ tableRows unicodeUpper m sh (headerPrinted st) r;
       headerPrinted :=
         headerPrinted st || (hasHeader unicodeUpper m r && sh) |}.
Proof.
  intros Herr. unfold mergeResult, tableRows, hasHeader. rewrite Herr.
  destruct (String.eqb_spec (Output r) "") as [Hout|Hout].
  { unfold outputLines. rewrite Hout.
    change (strings.Split (strings.TrimSuffix "" strings.nl) strings.LF)
      with [""].
    cbv beta match.
    rewrite isHeaderLine_empty, dataRows_cons_empty, dataRows_nil.
    rewrite append_nil_r, orb_false_r. by destruct st. }
  fold (outputLines r).
  destruct (outputLines r) as [|l0 rest].
  { cbn [length Nat.eqb]. rewrite append_nil_r, orb_false_r. by destruct st. }
  cbv beta match.
  cbn [length Nat.eqb mergeLines]. rewrite mergeLines_data.
  unfold mergeLine.
  destruct (String.eqb_spec l0 "") as [->|Hne].
  { rewrite isHeaderLine_empty, dataRows_cons_empty, orb_false_r.
    reflexivity. }
  cbn [Nat.eqb andb].
  destruct (isHeaderLine unicodeUpper m l0) eqn:Hhdr.
  - destruct st as [w [|]]; destruct sh;
      cbn [negb andb orb written headerPrinted WriteString];
      unfold WriteString; cbn [written headerPrinted];
      rewrite ?append_assoc, ?append_nil_l; reflexivity.
  - rewrite dataRows_cons by done. rewrite orb_false_r.
    unfold WriteString, dataRow. cbn [written headerPrinted].
    by rewrite !append_assoc.
Qed.

(** The whole contribution of a failed result. *)
Lemma mergeResult_failure m sh st r e :
  Error r = Some e ->
  mergeResult unicodeUpper m sh st r
  = {| written := written st +:+ errorLine (Context r) e;
       headerPrinted := headerPrinted st |}.
Proof. intros Herr. unfold mergeResult. by rewrite Herr. Qed.

Lemma columnWidth_from (rs : list Result) : forall w,
  fold_left
    (fun width r =>
       if (width <? String.length (Context r))%nat
       then String.length (Context r) else width)
    rs w
  = foldr (fun r width => String.length (Context r) `max` width) w rs.
Proof.
  induction rs as [|r rs IH]; intros w; simpl; [done|].
  rewrite IH. clear IH.
  destruct (Nat.ltb_spec w (String.length (Context r))) as [Hlt|Hge].
  - induction rs as [|r' rs IH]; simpl; lia.
  - induction rs as [|r' rs IH]; simpl; lia.
Qed.

(** The column width is the largest of 7 and the byte lengths of the
    cluster names. *)
Lemma columnWidth_max (rs : list Result) :
  columnWidth rs
  = foldr (fun r width => String.length (Context r) `max` width) 7 rs.
Proof. apply columnWidth_from. Qed.

End MergerFacts.

Section MergerClaims.
Import executor output.
Variable unicodeUpper : string -> string.
Variable m : Merger.

(** C2, as the code has it. A successful result adds to the merged
    table, after what the results before it wrote: its first line as the
    table header when that line is taken for a header and none was
    written yet; then one data row for each of its other lines that is
    not empty, in order. The output is split at the newlines after one
    final newline is removed; an empty line, wherever it stands, adds
    nothing: no empty data row is written for it. *)
Theorem MergeResults_successful_rows (pre post : list Result) (r : Result)
    (showHeaders : bool) :
  Error r = None ->
  let m' := {| clusterColumnWidth := columnWidth (pre ++ r :: post) |} in
  let before :=
    fold_left (mergeResult unicodeUpper m' showHeaders) pre (fresh false) in
  (MergeResults unicodeUpper m (pre ++ r :: post) showHeaders).2
  = written before
    +:+ tableRows unicodeUpper m' showHeaders (headerPrinted before) r
    +:+ written
          (fold_left (mergeResult unicodeUpper m' showHeaders) post
             (fresh (headerPrinted before
                     || (hasHeader unicodeUpper m' r && showHeaders)))).
Proof.
  intros Herr m' before. rewrite MergeResults_cut. fold m'. fold before.
  rewrite (mergeResult_success unicodeUpper m' showHeaders _ r Herr).
  cbn [written headerPrinted fresh]. by rewrite append_nil_l.
Qed.

(** C4, as the code has it. The grouped merge is the concatenation of
    the blocks of the results, in order; the block of a successful
    result ends with one empty line, the block of a failed result is its
    delimiter line and nothing more. For target A with output "abc" and
    target B failed with "boom" the merge is
    "=== Cluster: A ===\nabc\n\n=== Cluster: B (Error: boom) ===\n". *)
Theorem MergeNonTableOutput_blocks :
  (forall rs : list Result,
      MergeNonTableOutput m rs = concatStrings (groupBlock <$> rs))
  /\ MergeNonTableOutput m
       [ {| Context := "A"; Output := "abc"; Error := None; ExitCode := 0 |};
         {| Context := "B"; Output := "";
            Error := Some (errorString "boom"); ExitCode := 1 |} ]
     = "=== Cluster: A ===" +:+ strings.nl +:+ "abc" +:+ strings.nl
       +:+ strings.nl
       +:+ "=== Cluster: B (Error: boom) ===" +:+ strings.nl.
Proof.
  split; [|reflexivity].
  intros rs. unfold MergeNonTableOutput.
  assert (Hfrom : forall out,
             fold_left writeBlock rs out
             = out +:+ concatStrings (groupBlock <$> rs)).
  { induction rs as [|r rs IH]; intros out; cbn [fold_left fmap list_fmap].
    - unfold concatStrings. simpl. by rewrite append_nil_r.
    - rewrite IH. unfold concatStrings. cbn [foldr fold_right].
      rewrite <- append_assoc. f_equal.
      unfold writeBlock, groupBlock, closedOutput.
      destruct (Error r) as [e|]; [reflexivity|].
      destruct (strings.HasSuffix (Output r) strings.nl);
        cbn [negb]; by rewrite !append_assoc. }
  by rewrite Hfrom.
Qed.


Lemma overwriteErrored_Context f r :
  Context (overwriteErrored f r) = Context r.
Proof. unfold overwriteErrored. by destruct (Error r). Qed.

Lemma mergeResult_overwriteErrored f m' sh st r :
  mergeResult unicodeUpper m' sh st (overwriteErrored f r)
  = mergeResult unicodeUpper m' sh st r.
Proof.
  unfold overwriteErrored. destruct (Error r) as [e|] eqn:Herr; [|done].
  unfold mergeResult. cbn [Error Context]. by rewrite Herr.
Qed.

Lemma writeBlock_overwriteErrored f out r :
  writeBlock out (overwriteErrored f r) = writeBlock out r.
Proof.
  unfold overwriteErrored. destruct (Error r) as [e|] eqn:Herr; [|done].
  unfold writeBlock. cbn [Error Context]. by rewrite Herr.
Qed.

Lemma fold_left_fmap_ext {S A : Type} (step : S -> A -> S) (g : A -> A)
    (l : list A) :
  (forall s a, step s (g a) = step s a) ->
  forall s, fold_left step (g <$> l) s = fold_left step l s.
Proof.
  intros Hg. induction l as [|a l IH]; intros s; simpl; [done|].
  by rewrite Hg, IH.
Qed.

End MergerClaims.

(** *** Concrete merges *)

Example isHeaderLine_table_header :
  output.isHeaderLine noUnicodeUpper output.NewMerger "NAME READY STATUS"
  = true.
Proof. vm_compute. reflexivity. Qed.

Example isHeaderLine_data_row :
  output.isHeaderLine noUnicodeUpper output.NewMerger "web 1/1 Running"
  = false.
Proof. vm_compute. reflexivity. Qed.

(** One successful and one failed result: the header, one data row, the
    error line, and no row for the failed target. *)
Example MergeResults_success_and_failure :
  (output.MergeResults noUnicodeUpper output.NewMerger
     [ {| executor.Context := "east";
          executor.Output :=
            "NAME READY STATUS" +:+ strings.nl
            +:+ "web 1/1 Running" +:+ strings.nl;
          executor.Error := None; executor.ExitCode := 0 |};
       {| executor.Context := "west";
          executor.Output := "NAME READY STATUS" +:+ strings.nl;
          executor.Error := Some (executor.errorString "boom");
          executor.ExitCode := 1 |} ] true).2
  = "CLUSTER   NAME READY STATUS" +:+ strings.nl
    +:+ "east      web 1/1 Running" +:+ strings.nl
    +:+ "# Error from cluster west: boom" +:+ strings.nl.
Proof. vm_compute. reflexivity. Qed.

(** C2 as stated fails: the empty line between the two rows of this
    output leaves nothing in the merged table, neither a row with an empty
    text after the cluster name nor an empty line. *)
Lemma MergeResults_blank_line_dropped :
  let r := {| executor.Context := "east";
              executor.Output :=
                "web 1/1" +:+ strings.nl +:+ strings.nl
                +:+ "db 1/1" +:+ strings.nl;
              executor.Error := None; executor.ExitCode := 0 |} in
  let m' := {| output.clusterColumnWidth := 7 |} in
  outputLines r = ["web 1/1"; ""; "db 1/1"]
  /\ (output.MergeResults noUnicodeUpper output.NewMerger [r] true).2
     = dataRow m' "east" "web 1/1" +:+ dataRow m' "east" "db 1/1"
  /\ (output.MergeResults noUnicodeUpper output.NewMerger [r] true).2
     <> dataRow m' "east" "web 1/1" +:+ dataRow m' "east" ""
        +:+ dataRow m' "east" "db 1/1"
  /\ (output.MergeResults noUnicodeUpper output.NewMerger [r] true).2
     <> dataRow m' "east" "web 1/1" +:+ strings.nl
        +:+ dataRow m' "east" "db 1/1".
Proof. vm_compute. repeat split; discriminate. Qed.

Lemma MergeResults_successful_rows_witness :
  let r := {| executor.Context := "east";
              executor.Output :=
                "NAME READY" +:+ strings.nl +:+ "web 1/1" +:+ strings.nl
                +:+ strings.nl +:+ "db 1/1" +:+ strings.nl;
              executor.Error := None; executor.ExitCode := 0 |} in
  (output.MergeResults noUnicodeUpper output.NewMerger [r] true).2
  = "CLUSTER   NAME READY" +:+ strings.nl
    +:+ "east      web 1/1" +:+ strings.nl
    +:+ "east      db 1/1" +:+ strings.nl.
Proof.
  intros r.
  etrans.
  - exact (MergeResults_successful_rows noUnicodeUpper output.NewMerger
             [] [] r true eq_refl).
  - vm_compute. reflexivity.
Defined.

(** C4 as stated fails: the block of the failed target B ends the merge
    with its delimiter line; no empty line follows it. *)
Lemma MergeNonTableOutput_no_blank_after_error :
  output.MergeNonTableOutput output.NewMerger
    [ {| executor.Context := "A"; executor.Output := "abc";
         executor.Error := None; executor.ExitCode := 0 |};
      {| executor.Context := "B"; executor.Output := "";
         executor.Error := Some (executor.errorString "boom");
         executor.ExitCode := 1 |} ]
  <> "=== Cluster: A ===" +:+ strings.nl +:+ "abc" +:+ strings.nl
     +:+ strings.nl
     +:+ "=== Cluster: B (Error: boom) ===" +:+ strings.nl +:+ strings.nl.
Proof. vm_compute. discriminate. Qed.


(** * Further properties *)

(** ** The executor, on whole results *)

Section ExecutorMore.
Import executor.
Variable e : Executor.
Variables contexts args : list string.

Lemma completed_init : completed e contexts args (initState contexts).
Proof.
  split; simpl.
  - apply length_replicate.
  - intros i context Hi Hnot. exfalso. apply Hnot.
    apply elem_of_seq. apply lookup_lt_Some in Hi. lia.
Qed.

Lemma completed_step st st' :
  step e contexts args st st' ->
  completed e contexts args st -> completed e contexts args st'.
Proof.
  intros Hstep [Hlen Hdone].
  destruct Hstep as [st before after index context run Hrun Hctx].
  split; simpl.
  - by rewrite length_insert.
  - intros i context' Hi Hnot.
    destruct (decide (i = index)) as [->|Hne].
    + exists run. rewrite Hctx in Hi. injection Hi as <-.
      apply list_lookup_insert_eq. rewrite Hlen.
      by apply lookup_lt_Some in Hctx.
    + rewrite list_lookup_insert_ne by done.
      apply Hdone; [done|].
      rewrite Hrun. intros Hin. apply Hnot.
      apply elem_of_app in Hin as [Hin|Hin];
        [apply elem_of_app; by left|].
      apply elem_of_cons in Hin as [->|Hin];
        [done | apply elem_of_app; by right].
Qed.

Lemma completed_steps st st' :
  steps e contexts args st st' ->
  completed e contexts args st -> completed e contexts args st'.
Proof.
  induction 1 as [st|st1 st2 st3 Hstep _ IH]; [done|].
  intros Hinv. apply IH. by eapply completed_step.
Qed.

(** X1. In whatever order the goroutines finish, every element of the
    slice [Execute] returns is what [executeOne] returns for the context
    at the same index, in the world that goroutine met: no element is
    left at its zero value, and none holds the result of another
    context. *)
Theorem Execute_slots (rs : list Result) :
  Execute_returns e contexts args rs ->
  length rs = length contexts
  /\ forall i context,
       contexts !! i = Some context ->
       exists run, rs !! i = Some (executeOne run e context args).
Proof.
  intros (st & Hsteps & Hrun & <-).
  pose proof (completed_steps _ _ Hsteps completed_init) as [Hlen Hdone].
  split; [done|].
  intros i context Hi. apply Hdone; [done|].
  rewrite Hrun. apply not_elem_of_nil.
Qed.

Lemma stores_lookup (run : Runner) (order : list nat) :
  forall (rs : list Result) (i : nat) (context : string),
    contexts !! i = Some context ->
    length rs = length contexts ->
    fold_left
      (fun rs index =>
         match contexts !! index with
         | Some context => <[index := executeOne run e context args]> rs
         | None => rs
         end)
      order rs !! i
    = if decide (i ∈ order) then Some (executeOne run e context args)
      else rs !! i.
Proof.
  induction order as [|j order IH]; intros rs i context Hi Hlen; simpl.
  - destruct (decide (i ∈ [])) as [Hin|_]; [by apply elem_of_nil in Hin|done].
  - assert (Hlen' :
      length (match contexts !! j with
              | Some context0 => <[j := executeOne run e context0 args]> rs
              | None => rs
              end) = length contexts).
    { destruct (contexts !! j); [by rewrite length_insert | done]. }
    rewrite (IH _ i context Hi Hlen').
    destruct (decide (i ∈ order)) as [Hin|Hnin].
    + rewrite decide_True; [done | by apply elem_of_cons; right].
    + destruct (decide (i = j)) as [->|Hne].
      * rewrite decide_True by (apply elem_of_cons; by left).
        rewrite Hi. apply list_lookup_insert_eq. rewrite Hlen.
        by apply lookup_lt_Some in Hi.
      * rewrite decide_False
          by (intros [?|?]%elem_of_cons; [done | contradiction]).
        destruct (contexts !! j); [|done].
        by rewrite list_lookup_insert_ne.
Qed.

Lemma stores_length (run : Runner) (order : list nat) :
  forall rs : list Result,
    length
      (fold_left
         (fun rs index =>
            match contexts !! index with
            | Some context => <[index := executeOne run e context args]> rs
            | None => rs
            end)
         order rs)
    = length rs.
Proof.
  induction order as [|j order IH]; intros rs; simpl; [done|].
  rewrite IH. destruct (contexts !! j); [by rewrite length_insert | done].
Qed.

(** X2. When every run meets the same world, the order in which the
    goroutines finish does not show in the result: for every order, the
    slice is [executeOne] mapped over the contexts. *)
Theorem Execute_order_irrelevant (run : Runner) (order : list nat) :
  order ≡ₚ seq 0 (length contexts) ->
  Execute_in_order run e contexts args order
  = (fun context => executeOne run e context args) <$> contexts.
Proof.
  intros Hperm. unfold Execute_in_order.
  apply list_eq. intros i.
  destruct (contexts !! i) as [context|] eqn:Hi.
  - rewrite (stores_lookup run order _ i context Hi)
      by apply length_replicate.
    rewrite decide_True.
    + by rewrite list_lookup_fmap, Hi.
    + rewrite Hperm. apply elem_of_seq. apply lookup_lt_Some in Hi. lia.
  - rewrite list_lookup_fmap, Hi. simpl.
    apply lookup_ge_None. rewrite stores_length, length_replicate.
    by apply lookup_ge_None.
Qed.

(** X3. The error and the exit code of a result: the error is nil exactly
    when [cmd.Run] reported none, and then [ExitCode] is 0; an error of
    [cmd.Run] that is not an [*exec.ExitError] (the child could not be
    started) is kept as it is and leaves [ExitCode] at 0 as well, so a
    nonzero [ExitCode] implies an error but an [ExitCode] of 0 does not
    imply success. *)
Theorem executeOne_error_and_code (run : Runner) (context : string) :
  let o := run (timeout e) "kubectl" (cmdArgs e context args) in
  let r := executeOne run e context args in
  (Error r = None <-> err o = None)
  /\ (Error r = None -> ExitCode r = 0%Z)
  /\ (ExitCode r <> 0%Z -> exists code state,
        err o = Some (ExitError code state) /\ ExitCode r = code
        /\ Error r = Some (errorString (stderr o)))
  /\ (forall s, err o = Some (errorString s) ->
        Error r = Some (errorString s) /\ ExitCode r = 0%Z)
  /\ (forall msg, err o = Some (otherError msg) ->
        Error r = Some (otherError msg) /\ ExitCode r = 0%Z).
Proof.
  intros o r. subst o r. unfold executeOne.
  destruct (err (run _ _ _)) as [[s|code state|msg]|]; simpl;
    repeat split; intros; simplify_eq; try done.
  by exists code, state.
Qed.

End ExecutorMore.

(** ** The cluster manager, further *)

Section ClusterMore.
Import cluster.
Variable m : Manager.

Lemma FilterContexts_nonempty (contexts : list string) :
  contexts <> [] ->
  FilterContexts m contexts
  = filter (fun ctx => ctx ∈ GetContexts m) contexts.
Proof.
  intros Hne. unfold FilterContexts.
  destruct contexts as [|c contexts]; [done|].
  change (length (c :: contexts) =? 0)%nat with false. cbv iota.
  rewrite (fold_left_keep (mapIndex (availableContexts m))
             (fun ctx => ctx ∈ GetContexts m)).
  - done.
  - apply availableContexts_spec.
Qed.

Lemma filter_all {A : Type} (P : A -> Prop) `{!forall x, Decision (P x)}
    (l : list A) :
  Forall P l -> filter P l = l.
Proof.
  induction 1 as [|x l Hx _ IH]; [done|].
  rewrite filter_cons_True by done. by rewrite IH.
Qed.

Lemma FilterContexts_Forall (contexts : list string) :
  Forall (fun ctx => ctx ∈ GetContexts m) (FilterContexts m contexts).
Proof.
  destruct contexts as [|c contexts].
  - by apply Forall_forall.
  - rewrite FilterContexts_nonempty by done.
    apply Forall_forall. intros ctx Hin.
    by apply list_elem_of_filter in Hin as [Hin _].
Qed.

(** X4. Whatever is requested, every name [FilterContexts] returns is
    a context of the kubeconfig, and the names come in the order of the
    request (of the kubeconfig when nothing is requested), none of them
    made up or moved. *)
Theorem FilterContexts_known (contexts : list string) :
  Forall (fun ctx => ctx ∈ GetContexts m) (FilterContexts m contexts)
  /\ FilterContexts m contexts
     `sublist_of` (match contexts with
                   | [] => GetContexts m
                   | _ :: _ => contexts
                   end).
Proof.
  split; [apply FilterContexts_Forall|].
  destruct contexts as [|c contexts]; [done|].
  rewrite FilterContexts_nonempty by done. apply sublist_filter.
Qed.

(** X5. A request that is not empty and names no context of the
    kubeconfig gives the empty list, and not, as the empty request does,
    all the contexts. *)
Theorem FilterContexts_unknown_only (contexts : list string) :
  contexts <> [] ->
  Forall (fun ctx => ctx ∉ GetContexts m) contexts ->
  FilterContexts m contexts = [].
Proof.
  intros Hne Hunknown. rewrite FilterContexts_nonempty by done.
  clear Hne. induction Hunknown as [|ctx contexts Hctx _ IH]; [done|].
  by rewrite filter_cons_False.
Qed.

(** A request that is not empty and names only contexts of the
    kubeconfig is returned as it is, repetitions included. *)
Lemma FilterContexts_all_known (contexts : list string) :
  contexts <> [] ->
  Forall (fun ctx => ctx ∈ GetContexts m) contexts ->
  FilterContexts m contexts = contexts.
Proof.
  intros Hne Hknown. rewrite FilterContexts_nonempty by done.
  by apply filter_all.
Qed.

(** X6. Filtering twice is filtering once, as long as the first result
    is not empty (an empty result, filtered again, is the empty request
    and gives all the contexts). *)
Theorem FilterContexts_idempotent (contexts : list string) :
  FilterContexts m contexts <> [] ->
  FilterContexts m (FilterContexts m contexts) = FilterContexts m contexts.
Proof.
  intros Hne. rewrite (FilterContexts_nonempty _ Hne).
  apply filter_all, FilterContexts_Forall.
Qed.

End ClusterMore.

(** ** The configured contexts *)

Section ConfigFacts.
Import config.

Lemma found_spec (contexts : list string) (context : string) :
  found contexts context = true <-> context ∈ contexts.
Proof.
  induction contexts as [|ctx rest IH]; simpl.
  - split; [done | by intros ?%elem_of_nil].
  - rewrite elem_of_cons.
    destruct (String.eqb_spec ctx context) as [->|Hne].
    + intuition.
    + rewrite IH. intuition congruence.
Qed.

Lemma found_false (contexts : list string) (context : string) :
  found contexts context = false <-> context ∉ contexts.
Proof.
  rewrite <- found_spec.
  destruct (found contexts context); intuition congruence.
Qed.

Lemma firstIndex_split (contexts : list string) (context : string) :
  forall i,
    match firstIndex contexts context i with
    | Some j =>
        exists before after,
          contexts = before ++ context :: after
          /\ (context ∉ before) /\ j = i + length before
    | None => context ∉ contexts
    end.
Proof.
  induction contexts as [|ctx rest IH]; intros i; simpl.
  - apply not_elem_of_nil.
  - destruct (String.eqb_spec ctx context) as [->|Hne].
    + exists [], rest. split; [done|]. split; [apply not_elem_of_nil|].
      simpl. lia.
    + specialize (IH (S i)).
      destruct (firstIndex rest context (S i)) as [j|].
      * destruct IH as (before & after & -> & Hnot & ->).
        exists (ctx :: before), after. split; [done|]. split.
        -- intros [?|?]%elem_of_cons; [congruence | contradiction].
        -- simpl. lia.
      * intros [?|?]%elem_of_cons; [congruence | contradiction].
Qed.

(** What [RemoveContext] does to a list in which [context] occurs. *)
Lemma RemoveContext_first (kube : string) (before after : list string)
    (context : string) :
  context ∉ before ->
  RemoveContext {| Contexts := before ++ context :: after;
                   KubeConfig := kube |} context
  = ({| Contexts := before ++ after; KubeConfig := kube |}, true).
Proof.
  intros Hnot. unfold RemoveContext. simpl.
  pose proof (firstIndex_split (before ++ context :: after) context 0) as H.
  destruct (firstIndex (before ++ context :: after) context 0) as [j|].
  - destruct H as (before' & after' & Heq & Hnot' & ->). simpl.
    assert (Hlen : length before' = length before).
    { destruct (Nat.lt_trichotomy (length before') (length before))
        as [Hlt|[Heq'|Hgt]]; [|done|].
      - exfalso. apply Hnot.
        assert (Hl : (before ++ context :: after) !! length before'
                     = Some context).
        { rewrite Heq. by rewrite list_lookup_middle. }
        rewrite lookup_app_l in Hl by done.
        by apply list_elem_of_lookup_2 in Hl.
      - exfalso. apply Hnot'.
        assert (Hl : (before' ++ context :: after') !! length before
                     = Some context).
        { rewrite <- Heq. by rewrite list_lookup_middle. }
        rewrite lookup_app_l in Hl by done.
        by apply list_elem_of_lookup_2 in Hl. }
    rewrite Hlen. f_equal. f_equal.
    rewrite take_app_length.
    replace (S (length before)) with (length before + 1) by lia.
    by rewrite drop_app_add.
  - exfalso. apply H. apply elem_of_app. right. by left.
Qed.

(** X7. [AddContext] leaves the configuration holding [context]; it
    answers [true] exactly when [context] was not there, and then has put
    it at the end of the list; otherwise it changes nothing. It never
    makes a list without repetitions into one with repetitions, and does
    not touch the kubeconfig path. *)
Theorem AddContext_spec (c : MultiKubeConfig) (context : string) :
  let c' := (AddContext c context).1 in
  let ok := (AddContext c context).2 in
  HasContext c' context = true
  /\ (ok = true <-> context ∉ Contexts c)
  /\ Contexts c' = (if ok then Contexts c ++ [context] else Contexts c)
  /\ (ok = false -> c' = c)
  /\ (NoDup (Contexts c) -> NoDup (Contexts c'))
  /\ KubeConfig c' = KubeConfig c.
Proof.
  unfold AddContext, HasContext.
  destruct (found (Contexts c) context) eqn:Hfound; simpl.
  - apply found_spec in Hfound as Hin.
    repeat split; done.
  - apply found_false in Hfound as Hnot.
    repeat split; try done.
    + apply found_spec, elem_of_app. right. by left.
    + intros Hnd. apply NoDup_app. repeat split; [done| |apply NoDup_singleton].
      intros x Hx [->|[]%elem_of_nil]%elem_of_cons. contradiction.
Qed.

Lemma RemoveContext_filter (c : MultiKubeConfig) (context : string) :
  NoDup (Contexts c) ->
  let c' := (RemoveContext c context).1 in
  let ok := (RemoveContext c context).2 in
  Contexts c' = filter (fun ctx => ctx <> context) (Contexts c)
  /\ (ok = true <-> context ∈ Contexts c)
  /\ HasContext c' context = false
  /\ KubeConfig c' = KubeConfig c
  /\ length (Contexts c) = length (Contexts c') + (if ok then 1 else 0).
Proof.
  intros Hnd. destruct c as [l kube]. simpl in Hnd.
  destruct (decide (context ∈ l)) as [Hin|Hnot].
  - apply list_elem_of_split in Hin as (before & after & ->).
    apply NoDup_app in Hnd as (_ & Hdisj & Hnd2).
    apply NoDup_cons in Hnd2 as [Hafter _].
    assert (Hbefore : context ∉ before).
    { intros Hb. apply (Hdisj _ Hb). by left. }
    rewrite (RemoveContext_first kube before after context Hbefore). simpl.
    assert (Hfilter : filter (fun ctx => ctx <> context)
                        (before ++ context :: after) = before ++ after).
    { rewrite filter_app, filter_cons_False by (intros H; by apply H).
      rewrite !filter_all; [done| |];
        apply Forall_forall; intros x Hx ->; contradiction. }
    rewrite Hfilter. repeat split; try done.
    + intros _. apply elem_of_app. right. by left.
    + unfold HasContext. simpl. apply found_false.
      intros [?|?]%elem_of_app; contradiction.
    + rewrite !length_app. simpl. lia.
  - unfold RemoveContext. simpl.
    pose proof (firstIndex_split l context 0) as H.
    destruct (firstIndex l context 0) as [j|].
    + destruct H as (before & after & -> & _ & _).
      exfalso. apply Hnot. apply elem_of_app. right. by left.
    + simpl. repeat split; try done; try lia.
      * symmetry. apply filter_all. apply Forall_forall. by intros x Hx ->.
      * unfold HasContext. simpl. by apply found_false.
Qed.

(** X8. On a list without repetitions [RemoveContext] removes
    [context] and nothing else, keeps the order of the rest, and answers
    whether [context] was there; afterwards the configuration does not
    hold [context]. *)
Theorem RemoveContext_spec (c : MultiKubeConfig) (context : string) :
  NoDup (Contexts c) ->
  let c' := (RemoveContext c context).1 in
  let ok := (RemoveContext c context).2 in
  Contexts c' = filter (fun ctx => ctx <> context) (Contexts c)
  /\ (ok = true <-> context ∈ Contexts c)
  /\ HasContext c' context = false
  /\ KubeConfig c' = KubeConfig c.
Proof.
  intros Hnd c' ok.
  destruct (RemoveContext_filter c context Hnd) as (H1 & H2 & H3 & H4 & _).
  done.
Qed.

(** X9. In a list with repetitions [RemoveContext] removes the first
    occurrence of [context] only: a later occurrence stays, and the
    configuration still holds [context]. *)
Theorem RemoveContext_first_only (kube : string)
    (before between after : list string) (context : string) :
  context ∉ before ->
  let c := {| Contexts := before ++ context :: between ++ context :: after;
              KubeConfig := kube |} in
  RemoveContext c context
  = ({| Contexts := before ++ between ++ context :: after;
        KubeConfig := kube |}, true)
  /\ HasContext (RemoveContext c context).1 context = true.
Proof.
  intros Hnot c. subst c.
  rewrite (RemoveContext_first kube before _ context Hnot).
  split; [done|]. unfold HasContext. simpl. apply found_spec.
  apply elem_of_app. right. apply elem_of_app. right. by left.
Qed.

(** X10. Removing a context right after adding it gives back the
    configuration as it was, when the context was not there before. *)
Theorem AddContext_RemoveContext (c : MultiKubeConfig) (context : string) :
  context ∉ Contexts c ->
  RemoveContext (AddContext c context).1 context = (c, true).
Proof.
  intros Hnot. destruct c as [l kube]. simpl in Hnot.
  unfold AddContext. simpl.
  apply found_false in Hnot as Hfound. rewrite Hfound. simpl.
  rewrite (RemoveContext_first kube l [] context Hnot).
  by rewrite app_nil_r.
Qed.

End ConfigFacts.

(** ** The command line *)

Section CmdFacts.
Import cmd.

Lemma flagLoop_spec (order : list string) (arg : string) :
  flagLoop order arg = true
  <-> exists flag, flag ∈ order
        /\ (arg = flag \/ strings.HasPrefix arg (flag +:+ "=") = true).
Proof.
  induction order as [|flag rest IH]; simpl.
  - split; [done | by intros (flag & Hin%elem_of_nil & _)].
  - destruct (String.eqb_spec arg flag) as [->|Hne]; simpl.
    + split; [|done]. intros _. exists flag. split; [by left | by left].
    + destruct (strings.HasPrefix arg (flag +:+ "=")) eqn:Hpre.
      * split; [|done]. intros _. exists flag. split; [by left | by right].
      * rewrite IH. split.
        -- intros (f & Hin & Hf). exists f. split; [by right | done].
        -- intros (f & [->|Hin]%elem_of_cons & Hf).
           ++ destruct Hf; congruence.
           ++ by exists f.
Qed.

(** X11. The order in which Go walks the map [ourFlags] does not
    matter: for every order of its keys the loop finds the same answer to
    "is this argument one of our flags". *)
Theorem flagLoop_any_order (order : list string) (arg : string) :
  order ≡ₚ (map_to_list ourFlags).*1 ->
  flagLoop order arg = isOurFlag arg.
Proof.
  intros Hperm. unfold isOurFlag.
  apply eq_true_iff_eq. rewrite !flagLoop_spec.
  split; intros (flag & Hin & H); exists flag; split; try done.
  - by rewrite <- Hperm.
  - by rewrite Hperm.
Qed.

Local Opaque isOurFlag.

(** The two slices built so far are only appended to. *)
Lemma separateLoop_from (args : list string) :
  forall ourArgs kubectlArgs,
    separateLoop args ourArgs kubectlArgs
    = (ourArgs ++ (separateArgs args).1, kubectlArgs ++ (separateArgs args).2).
Proof.
  unfold separateArgs.
  assert (H : forall n args, length args <= n -> forall ourArgs kubectlArgs,
             separateLoop args ourArgs kubectlArgs
             = (ourArgs ++ (separateLoop args [] []).1,
                kubectlArgs ++ (separateLoop args [] []).2)).
  { clear args. induction n as [|n IH]; intros args Hlen ours kube.
    - destruct args as [|arg rest]; [|cbn [length] in Hlen; lia].
      cbn [separateLoop fst snd]. by rewrite !app_nil_r.
    - destruct args as [|arg rest].
      { cbn [separateLoop fst snd]. by rewrite !app_nil_r. }
      cbn [length] in Hlen. cbn [separateLoop].
      destruct (isOurFlag arg).
      + destruct rest as [|next rest'].
        * cbn [separateLoop fst snd app]. by rewrite !app_nil_r.
        * cbn [length] in Hlen.
          destruct (negb (strings.Contains arg "=")
                    && negb (strings.HasPrefix next "-")).
          -- rewrite (IH rest' ltac:(lia) ((ours ++ [arg]) ++ [next]) kube).
             rewrite (IH rest' ltac:(lia) (([] ++ [arg]) ++ [next]) []).
             cbn [fst snd app]. by rewrite <- !app_assoc.
          -- rewrite (IH (next :: rest') ltac:(cbn [length]; lia)
                        (ours ++ [arg]) kube).
             rewrite (IH (next :: rest') ltac:(cbn [length]; lia)
                        ([] ++ [arg]) []).
             cbn [fst snd app]. by rewrite <- !app_assoc.
      + rewrite (IH rest ltac:(lia) ours (kube ++ [arg])).
        rewrite (IH rest ltac:(lia) [] ([] ++ [arg])).
        cbn [fst snd app]. by rewrite <- !app_assoc. }
  intros. by apply (H (length args)).
Qed.

(** [separateArgs], one argument at a time. *)
Lemma separateLoop_cons (arg : string) (rest ourArgs kubectlArgs : list string) :
  separateLoop (arg :: rest) ourArgs kubectlArgs
  = if isOurFlag arg then
      match rest with
      | next :: rest' =>
          if negb (strings.Contains arg "=")
             && negb (strings.HasPrefix next "-")
          then separateLoop rest' ((ourArgs ++ [arg]) ++ [next]) kubectlArgs
          else separateLoop rest (ourArgs ++ [arg]) kubectlArgs
      | [] => separateLoop rest (ourArgs ++ [arg]) kubectlArgs
      end
    else separateLoop rest ourArgs (kubectlArgs ++ [arg]).
Proof. reflexivity. Qed.

Lemma separateArgs_nil : separateArgs [] = ([], []).
Proof. reflexivity. Qed.

Lemma separateArgs_other (arg : string) (rest : list string) :
  isOurFlag arg = false ->
  separateArgs (arg :: rest)
  = ((separateArgs rest).1, arg :: (separateArgs rest).2).
Proof.
  intros Hflag. unfold separateArgs at 1.
  rewrite separateLoop_cons, Hflag. apply separateLoop_from.
Qed.

Lemma separateArgs_flag_last (arg : string) :
  isOurFlag arg = true -> separateArgs [arg] = ([arg], []).
Proof.
  intros Hflag. unfold separateArgs.
  rewrite separateLoop_cons, Hflag. reflexivity.
Qed.

Lemma separateArgs_flag_value (arg next : string) (rest : list string) :
  isOurFlag arg = true ->
  strings.Contains arg "=" = false ->
  strings.HasPrefix next "-" = false ->
  separateArgs (arg :: next :: rest)
  = (arg :: next :: (separateArgs rest).1, (separateArgs rest).2).
Proof.
  intros Hflag Heq Hdash. unfold separateArgs at 1.
  rewrite separateLoop_cons, Hflag, Heq, Hdash. cbn [negb andb].
  apply separateLoop_from.
Qed.

Lemma separateArgs_flag_alone (arg next : string) (rest : list string) :
  isOurFlag arg = true ->
  strings.Contains arg "=" = true \/ strings.HasPrefix next "-" = true ->
  separateArgs (arg :: next :: rest)
  = (arg :: (separateArgs (next :: rest)).1, (separateArgs (next :: rest)).2).
Proof.
  intros Hflag Hcond. unfold separateArgs at 1.
  rewrite separateLoop_cons, Hflag.
  assert (negb (strings.Contains arg "=")
          && negb (strings.HasPrefix next "-") = false) as ->.
  { destruct Hcond as [H|H]; rewrite H; [reflexivity | apply andb_false_r]. }
  apply separateLoop_from.
Qed.

(** Induction along the loop of [separateArgs], which steps over one
    argument or two. *)
Lemma separate_ind (P : list string -> Prop) :
  P [] ->
  (forall arg rest, P rest ->
     (forall next rest', rest = next :: rest' -> P rest') ->
     P (arg :: rest)) ->
  forall args, P args.
Proof.
  intros Hnil Hcons args.
  assert (H : P args
              /\ forall next rest', args = next :: rest' -> P rest').
  { induction args as [|arg rest [IH1 IH2]].
    - split; [done | discriminate].
    - split; [by apply Hcons|]. by intros next rest' [= _ <-]. }
  apply H.
Qed.

Lemma separateArgs_cases (P : list string -> list string * list string -> Prop) :
  P [] ([], []) ->
  (forall arg rest,
      isOurFlag arg = false -> P rest (separateArgs rest) ->
      P (arg :: rest) ((separateArgs rest).1, arg :: (separateArgs rest).2)) ->
  (forall arg, isOurFlag arg = true -> P [arg] ([arg], [])) ->
  (forall arg next rest,
      isOurFlag arg = true -> strings.HasPrefix next "-" = false ->
      P rest (separateArgs rest) ->
      P (arg :: next :: rest)
        (arg :: next :: (separateArgs rest).1, (separateArgs rest).2)) ->
  (forall arg next rest,
      isOurFlag arg = true ->
      P (next :: rest) (separateArgs (next :: rest)) ->
      P (arg :: next :: rest)
        (arg :: (separateArgs (next :: rest)).1,
         (separateArgs (next :: rest)).2)) ->
  forall args, P args (separateArgs args).
Proof.
  intros Hnil Hother Hlast Hvalue Halone.
  induction args as [|arg rest IH1 IH2] using separate_ind; [done|].
  destruct (isOurFlag arg) eqn:Hflag.
  - destruct rest as [|next rest'].
    + rewrite separateArgs_flag_last by done. by apply Hlast.
    + destruct (strings.Contains arg "=") eqn:Heq.
      { rewrite separateArgs_flag_alone by auto. by apply Halone. }
      destruct (strings.HasPrefix next "-") eqn:Hdash.
      { rewrite separateArgs_flag_alone by auto. by apply Halone. }
      rewrite separateArgs_flag_value by done.
      apply Hvalue; [done | done | by apply (IH2 next)].
  - rewrite separateArgs_other by done. by apply Hother.
Qed.

(** X12. [separateArgs] deals the arguments out into its two results:
    each argument goes to exactly one of them, and each result keeps the
    order of the command line. *)
Theorem separateArgs_partition (args : list string) :
  (separateArgs args).1 ++ (separateArgs args).2 ≡ₚ args
  /\ (separateArgs args).1 `sublist_of` args
  /\ (separateArgs args).2 `sublist_of` args.
Proof.
  apply (separateArgs_cases
           (fun args res => res.1 ++ res.2 ≡ₚ args
                            /\ res.1 `sublist_of` args
                            /\ res.2 `sublist_of` args)); cbn [fst snd].
  - done.
  - intros arg rest _ (Hperm & Hs1 & Hs2). repeat split.
    + rewrite <- Permutation_middle. by apply perm_skip.
    + by apply sublist_cons.
    + by apply sublist_skip.
  - intros arg _. repeat split; [done | done | apply sublist_nil_l].
  - intros arg next rest _ _ (Hperm & Hs1 & Hs2). repeat split.
    + cbn [app]. by do 2 apply perm_skip.
    + by do 2 apply sublist_skip.
    + by do 2 apply sublist_cons.
  - intros arg next rest _ (Hperm & Hs1 & Hs2). repeat split.
    + cbn [app]. by apply perm_skip.
    + by apply sublist_skip.
    + by apply sublist_cons.
Qed.

(** X13. No flag of ours reaches kubectl: the second result holds none,
    every flag of ours on the command line is in the first result, and a
    command line without any of them is passed to kubectl as it is. *)
Theorem separateArgs_kubectl_clean (args : list string) :
  Forall (fun arg => isOurFlag arg = false) (separateArgs args).2
  /\ Forall (fun arg => isOurFlag arg = true -> arg ∈ (separateArgs args).1)
            args
  /\ (Forall (fun arg => isOurFlag arg = false) args ->
      separateArgs args = ([], args)).
Proof.
  apply (separateArgs_cases
           (fun args res =>
              Forall (fun arg => isOurFlag arg = false) res.2
              /\ Forall (fun arg => isOurFlag arg = true -> arg ∈ res.1) args
              /\ (Forall (fun arg => isOurFlag arg = false) args ->
                  res = ([], args)))); cbn [fst snd].
  - done.
  - intros arg rest Hflag (Hclean & Hours & Hid). repeat split.
    + by constructor.
    + constructor; [congruence | done].
    + intros Hall. apply Forall_cons in Hall as [_ Hall].
      specialize (Hid Hall). by rewrite Hid.
  - intros arg Hflag. repeat split; [done | |].
    + constructor; [intros _; by left | done].
    + intros Hall. apply Forall_cons in Hall as [Hno _]. congruence.
  - intros arg next rest Hflag Hdash (Hclean & Hours & Hid).
    repeat split; [done | |].
    + constructor; [intros _; by left|].
      constructor; [intros _; right; by left|].
      eapply Forall_impl; [exact Hours|]. intros a Ha Hf.
      do 2 right. by apply Ha.
    + intros Hall. apply Forall_cons in Hall as [Hno _]. congruence.
  - intros arg next rest Hflag (Hclean & Hours & Hid).
    repeat split; [done | |].
    + constructor; [intros _; by left|].
      eapply Forall_impl; [exact Hours|]. intros a Ha Hf.
      right. by apply Ha.
    + intros Hall. apply Forall_cons in Hall as [Hno _]. congruence.
Qed.

(** X14. A flag of ours written without [=] takes the next argument
    with it whenever that argument does not begin with a dash, whichever
    flag it is: also [--all-contexts], which has no value, so that the
    word after it (the kubectl command) does not reach kubectl. *)
Theorem separateArgs_takes_next (arg next : string) (rest : list string) :
  isOurFlag arg = true ->
  strings.Contains arg "=" = false ->
  strings.HasPrefix next "-" = false ->
  separateArgs (arg :: next :: rest)
  = (arg :: next :: (separateArgs rest).1, (separateArgs rest).2).
Proof. apply separateArgs_flag_value. Qed.

End CmdFacts.

Section RunFacts.
Import cmd.

(** X15. [runMultiKubectl] runs kubectl only with a command to run, on
    at least one context, and only on contexts of the kubeconfig it
    loaded; the executor gets the path of that kubeconfig and the timeout
    flag. *)
Theorem plan_dispatch (flags : Flags) (files : Files) (args : list string)
    (targetContexts : list string) (exec : executor.Executor) :
  plan flags files args = Dispatch targetContexts exec ->
  args <> [] /\ targetContexts <> []
  /\ exists mgr,
       NewManager files (kubeConfig flags) = inl mgr
       /\ Forall (fun ctx => ctx ∈ cluster.GetContexts mgr) targetContexts
       /\ exec = executor.NewExecutor (cluster.kubeConfigPath mgr)
                                      (timeout flags).
Proof.
  unfold plan. destruct args as [|arg args]; [discriminate|].
  cbn [length Nat.eqb].
  destruct (NewManager files (kubeConfig flags)) as [mgr|msg]; [|discriminate].
  assert (Hall : Forall (fun ctx => ctx ∈ cluster.GetContexts mgr)
                        (cluster.GetContexts mgr)) by by apply Forall_forall.
  set (chosen := if (0 <? length (contexts flags))%nat then _ else _).
  assert (Hchosen : match chosen with
                    | inl targets =>
                        Forall (fun ctx => ctx ∈ cluster.GetContexts mgr) targets
                    | inr _ => True
                    end).
  { subst chosen.
    destruct (0 <? length (contexts flags))%nat;
      [apply FilterContexts_Forall|].
    destruct (allContexts flags); [done|].
    destruct (Exists files); [|done].
    destruct (Load files) as [cfg|msg]; [|done].
    destruct (0 <? length (config.Contexts cfg))%nat;
      [apply FilterContexts_Forall | done]. }
  destruct chosen as [targets|msg]; [|discriminate].
  destruct targets as [|t targets]; [discriminate|].
  cbn [length Nat.eqb]. intros [= <- <-].
  split; [done|]. split; [done|]. by exists mgr.
Qed.

(** A [--contexts] flag that is not empty decides alone: neither
    [--all-contexts] nor the file ~/.multikube/config (there or not,
    readable or not) changes what [runMultiKubectl] does. *)
Lemma plan_contexts_flag_first (flags : Flags) (files : Files)
    (args : list string) (allContexts' exists' : bool)
    (load' : config.MultiKubeConfig + string) :
  contexts flags <> [] ->
  plan {| kubeConfig := kubeConfig flags; contexts := contexts flags;
          allContexts := allContexts'; timeout := timeout flags |}
       {| NewManager := NewManager files; Exists := exists';
          Load := load' |} args
  = plan flags files args.
Proof.
  intros Hne. unfold plan. cbn [kubeConfig contexts NewManager timeout].
  destruct (contexts flags) as [|c cs]; [done|].
  cbn [length Nat.ltb Nat.leb]. reflexivity.
Qed.

(** X16. When [--contexts] names only contexts that the kubeconfig does
    not have, nothing is run: the command ends with "No valid contexts
    found" and status 1 (it does not fall back on all the contexts). *)
Theorem plan_unknown_contexts (flags : Flags) (files : Files)
    (args : list string) (mgr : cluster.Manager) :
  args <> [] ->
  NewManager files (kubeConfig flags) = inl mgr ->
  contexts flags <> [] ->
  Forall (fun ctx => ctx ∉ cluster.GetContexts mgr) (contexts flags) ->
  plan flags files args = Abort ("No valid contexts found" +:+ strings.nl).
Proof.
  intros Hargs Hmgr Hne Hunknown. unfold plan.
  destruct args as [|arg args]; [done|]. cbn [length Nat.eqb].
  rewrite Hmgr.
  assert (Hempty : cluster.FilterContexts mgr (contexts flags) = []).
  { rewrite FilterContexts_nonempty by done.
    clear Hne. induction Hunknown as [|ctx l Hctx _ IH]; [done|].
    by rewrite filter_cons_False. }
  destruct (contexts flags) as [|c cs]; [done|].
  cbn [length Nat.ltb Nat.leb]. by rewrite Hempty.
Qed.

Lemma exitStatus_spec (results : list executor.Result) :
  (exitStatus results = 0%Z
   <-> Forall (fun r => executor.Error r = None) results)
  /\ (exitStatus results = 0%Z \/ exitStatus results = 1%Z).
Proof.
  induction results as [|r rest [IH1 IH2]]; simpl.
  - split; [done | by left].
  - destruct (executor.Error r) as [e|] eqn:Herr.
    + split; [|by right]. split; [done|].
      intros H. apply Forall_cons in H as [H _]. congruence.
    + split; [|done]. rewrite IH1. split.
      * intros H. by constructor.
      * intros H. by apply Forall_cons in H as [_ H].
Qed.

(** X17. The exit status is 0 exactly when every result is free of
    error, and 1 otherwise, whichever merge is printed; the merged
    output is printed in both cases. *)
Theorem report_exit_status (unicodeUpper : string -> string)
    (args : list string) (results : list executor.Result) :
  ((report unicodeUpper args results).2 = 0%Z
   <-> Forall (fun r => executor.Error r = None) results)
  /\ ((report unicodeUpper args results).2 = 0%Z
      \/ (report unicodeUpper args results).2 = 1%Z).
Proof. apply exitStatus_spec. Qed.

Lemma nonTableLoop_spec (commands args : list string) :
  nonTableLoop commands args = true
  <-> exists first rest, args = first :: rest /\ first ∈ commands.
Proof.
  induction commands as [|c commands IH]; simpl.
  - split; [done | by intros (f & r & _ & ?%elem_of_nil)].
  - destruct args as [|first rest]; simpl.
    + rewrite IH. split; intros (f & r & H & _); discriminate.
    + destruct (String.eqb_spec first c) as [->|Hne].
      * split; [|done]. intros _. exists c, rest. split; [done | by left].
      * rewrite IH. split.
        -- intros (f & r & [= <- <-] & Hin). exists first, rest.
           split; [done | by right].
        -- intros (f & r & [= <- <-] & [->|Hin]%elem_of_cons); [done|].
           by exists first, rest.
Qed.

(** X18. The merge is chosen by the first argument alone: the grouped
    merge when it is one of [nonTableCommands], the tabular merge with
    headers in every other case, also when such a command word comes
    later on the command line (after a flag, say). *)
Theorem report_mode (unicodeUpper : string -> string)
    (first : string) (rest : list string) (results : list executor.Result) :
  (report unicodeUpper (first :: rest) results).1
  = if decide (first ∈ nonTableCommands)
    then output.MergeNonTableOutput output.NewMerger results
    else (output.MergeResults unicodeUpper output.NewMerger results true).2.
Proof.
  unfold report, isNonTableCmd. cbn [fst].
  destruct (nonTableLoop nonTableCommands (first :: rest)) eqn:Hloop.
  - apply nonTableLoop_spec in Hloop as (f & r & [= <- <-] & Hin).
    by rewrite decide_True.
  - rewrite decide_False; [done|]. intros Hin.
    assert (nonTableLoop nonTableCommands (first :: rest) = true).
    { apply nonTableLoop_spec. by exists first, rest. }
    congruence.
Qed.

End RunFacts.

(** ** The [config] subcommands *)

Section ConfigCmdFacts.
Import cmd.

Lemma availableOf_from (names : list string) :
  forall (available : gmap string bool) (key : string),
    cluster.mapIndex
      (fold_left (fun av ctx => <[ctx := true]> av) names available) key
    = true
    <-> key ∈ names \/ cluster.mapIndex available key = true.
Proof.
  induction names as [|ctx names IH]; intros available key; simpl.
  - split; [by right | intros [Hin|H]; [by apply elem_of_nil in Hin | done]].
  - rewrite IH. unfold cluster.mapIndex at 1.
    destruct (decide (ctx = key)) as [Heq|Hne].
    + rewrite Heq, lookup_insert_eq, elem_of_cons. simpl.
      intuition congruence.
    + rewrite lookup_insert_ne by done.
      fold (cluster.mapIndex available key).
      rewrite elem_of_cons. intuition congruence.
Qed.

Lemma availableOf_spec (names : list string) (key : string) :
  cluster.mapIndex (availableOf names) key = true <-> key ∈ names.
Proof.
  unfold availableOf. rewrite availableOf_from.
  unfold cluster.mapIndex. rewrite lookup_empty. simpl.
  intuition congruence.
Qed.

Lemma configAddStep_invariant mgr cfg args st ctx :
  ctx ∈ args ->
  addInvariant mgr cfg args st ->
  addInvariant mgr cfg args
    (configAddStep (availableOf (cluster.GetContexts mgr)) st ctx).
Proof.
  intros Hin (new & Hctxs & Hadded & Hnd & Hall & Hkube).
  unfold configAddStep.
  destruct (cluster.mapIndex (availableOf (cluster.GetContexts mgr)) ctx)
    eqn:Hav; cbn [negb].
  - apply availableOf_spec in Hav. unfold config.AddContext.
    destruct (config.found (config.Contexts (addCfg st)) ctx) eqn:Hfound.
    + by exists new.
    + apply found_false in Hfound. rewrite Hctxs in Hfound.
      exists (new ++ [ctx]). cbn [addCfg added config.Contexts config.KubeConfig].
      repeat split.
      * by rewrite Hctxs, app_assoc.
      * rewrite length_app. simpl. lia.
      * apply NoDup_app. repeat split; [done| |apply NoDup_singleton].
        intros x Hx [->|[]%elem_of_nil]%elem_of_cons.
        apply Hfound. apply elem_of_app. by right.
      * apply Forall_app. split; [done|]. constructor; [|done].
        repeat split; [done | done |].
        intros Hc. apply Hfound. apply elem_of_app. by left.
      * done.
  - by exists new.
Qed.

(** X19. [config add]: the contexts it adds are put after the ones
    already configured, each once; each is an argument, a context of the
    kubeconfig, and was not configured before; [added] counts them, so
    the file is written exactly when the list has grown. *)
Theorem configAddLoop_spec (mgr : cluster.Manager)
    (cfg : config.MultiKubeConfig) (args : list string) :
  let st := configAddLoop mgr cfg args in
  (exists new,
      config.Contexts (addCfg st) = config.Contexts cfg ++ new
      /\ added st = length new
      /\ NoDup new
      /\ Forall (fun ctx => ctx ∈ args /\ ctx ∈ cluster.GetContexts mgr
                            /\ ctx ∉ config.Contexts cfg) new
      /\ config.KubeConfig (addCfg st) = config.KubeConfig cfg)
  /\ (configAddSaved st = None <-> addCfg st = cfg).
Proof.
  intros st.
  assert (Hinv : addInvariant mgr cfg args st).
  { subst st. unfold configAddLoop.
    assert (H : forall args' st0,
               Forall (fun ctx => ctx ∈ args) args' ->
               addInvariant mgr cfg args st0 ->
               addInvariant mgr cfg args
                 (fold_left
                    (configAddStep (availableOf (cluster.GetContexts mgr)))
                    args' st0)).
    { induction args' as [|a args' IH]; intros st0 Hsub Hinv; [done|].
      apply Forall_cons in Hsub as [Ha Hsub]. simpl.
      apply IH; [done|]. by apply configAddStep_invariant. }
    apply H.
    - by apply Forall_forall.
    - exists []. cbn. rewrite app_nil_r.
      repeat split; first [done | apply NoDup_nil_2 | constructor]. }
  split; [exact Hinv|].
  destruct Hinv as (new & Hctxs & Hadded & _ & _ & Hkube).
  unfold configAddSaved. rewrite Hadded.
  destruct new as [|c new]; cbn [length Nat.ltb Nat.leb].
  - split; [|done]. intros _. rewrite app_nil_r in Hctxs.
    destruct (addCfg st), cfg. simpl in *. congruence.
  - split; [done|]. intros Heq. rewrite Heq in Hctxs.
    apply (f_equal length) in Hctxs. rewrite length_app in Hctxs.
    simpl in Hctxs. lia.
Qed.

Lemma configRemoveLoop_from (args : list string) :
  forall st,
    NoDup (config.Contexts (removeCfg st)) ->
    let st' := fold_left configRemoveStep args st in
    config.Contexts (removeCfg st')
    = filter (fun ctx => ctx ∉ args) (config.Contexts (removeCfg st))
    /\ removed st' + length (config.Contexts (removeCfg st'))
       = removed st + length (config.Contexts (removeCfg st))
    /\ config.KubeConfig (removeCfg st') = config.KubeConfig (removeCfg st).
Proof.
  induction args as [|a args IH]; intros st Hnd; cbn [fold_left].
  - repeat split; try done. symmetry. apply filter_all.
    apply Forall_forall. intros x _. apply not_elem_of_nil.
  - destruct (RemoveContext_filter (removeCfg st) a Hnd)
      as (Hf & _ & _ & Hk & Hlen).
    set (st1 := configRemoveStep st a).
    assert (H1 : removeCfg st1 = (config.RemoveContext (removeCfg st) a).1
                 /\ removed st1
                    = removed st
                      + (if (config.RemoveContext (removeCfg st) a).2
                         then 1 else 0)).
    { subst st1. unfold configRemoveStep.
      destruct (config.RemoveContext (removeCfg st) a) as [cfg' [|]];
        cbn [removeCfg removed fst snd]; split; [done|lia|done|lia]. }
    destruct H1 as [Hcfg1 Hrem1].
    assert (Hnd1 : NoDup (config.Contexts (removeCfg st1))).
    { rewrite Hcfg1, Hf. by apply NoDup_filter. }
    destruct (IH st1 Hnd1) as (Hf' & Hlen' & Hk').
    repeat split.
    + rewrite Hf', Hcfg1, Hf, list_filter_filter.
      apply list_filter_iff. intros x. rewrite elem_of_cons.
      intuition congruence.
    + rewrite Hlen', Hrem1, Hcfg1. lia.
    + by rewrite Hk', Hcfg1.
Qed.

(** X20. [config remove], on a configuration without repetitions:
    what is left are the configured contexts that are not among the
    arguments, in their order; [removed] counts how many went, so the
    file is written exactly when the list has shrunk. *)
Theorem configRemoveLoop_spec (cfg : config.MultiKubeConfig)
    (args : list string) :
  NoDup (config.Contexts cfg) ->
  let st := configRemoveLoop cfg args in
  config.Contexts (removeCfg st)
  = filter (fun ctx => ctx ∉ args) (config.Contexts cfg)
  /\ removed st + length (config.Contexts (removeCfg st))
     = length (config.Contexts cfg)
  /\ config.KubeConfig (removeCfg st) = config.KubeConfig cfg
  /\ (configRemoveSaved st = None <-> removeCfg st = cfg).
Proof.
  intros Hnd st.
  destruct (configRemoveLoop_from args
              {| removeCfg := cfg; removed := 0; removeOut := "" |} Hnd)
    as (Hf & Hlen & Hk).
  fold (configRemoveLoop cfg args) in Hf, Hlen, Hk. fold st in Hf, Hlen, Hk.
  cbn [removeCfg removed] in Hf, Hlen, Hk.
  repeat split; try done.
  - unfold configRemoveSaved.
    destruct (removed st) as [|n] eqn:Hn; cbn [Nat.ltb Nat.leb]; [|done].
    intros _. rewrite Hf in Hlen.
    assert (Hsame : filter (fun ctx => ctx ∉ args) (config.Contexts cfg)
                    = config.Contexts cfg).
    { apply filter_all, Forall_forall. intros x Hx.
      destruct (decide (x ∉ args)) as [Hok|Hbad]; [done|].
      pose proof (length_filter_lt (fun ctx => ctx ∉ args)
                    (config.Contexts cfg) x Hx Hbad).
      simpl in Hlen. lia. }
    rewrite Hsame in Hf.
    destruct (removeCfg st), cfg. simpl in *. congruence.
  - intros Heq. unfold configRemoveSaved. rewrite Heq in Hlen.
    assert (removed st = 0) as -> by lia. done.
Qed.

Lemma isAvailable_spec (allContexts : list string) (ctx : string) :
  isAvailable allContexts ctx = true <-> ctx ∈ allContexts.
Proof.
  induction allContexts as [|a rest IH]; simpl.
  - split; [done | by intros ?%elem_of_nil].
  - rewrite elem_of_cons.
    destruct (String.eqb_spec ctx a) as [->|Hne]; [intuition|].
    rewrite IH. intuition congruence.
Qed.

(** X21. [config select] preselects the configured contexts that the
    kubeconfig has, in the order of the configuration, and nothing when
    there is no configuration file; every preselected name is one of the
    options shown. For a configuration that is not empty this is the list
    [FilterContexts] computes, by other means. *)
Theorem defaultSelected_spec (mgr : cluster.Manager) (configExists : bool)
    (cfg : config.MultiKubeConfig) :
  let allContexts := cluster.GetContexts mgr in
  defaultSelected configExists cfg allContexts
  = (if configExists
     then filter (fun ctx => ctx ∈ allContexts) (config.Contexts cfg)
     else [])
  /\ Forall (fun ctx => ctx ∈ allContexts)
            (defaultSelected configExists cfg allContexts)
  /\ (config.Contexts cfg <> [] ->
      defaultSelected true cfg allContexts
      = cluster.FilterContexts mgr (config.Contexts cfg)).
Proof.
  intros allContexts.
  assert (Heq : defaultSelected configExists cfg allContexts
                = if configExists
                  then filter (fun ctx => ctx ∈ allContexts)
                              (config.Contexts cfg)
                  else []).
  { unfold defaultSelected. destruct configExists; [|done]. cbn [andb].
    destruct (config.Contexts cfg) as [|c cs]; [done|].
    cbn [length Nat.ltb Nat.leb].
    rewrite (fold_left_keep (isAvailable allContexts)
               (fun ctx => ctx ∈ allContexts)); [done|].
    apply isAvailable_spec. }
  split; [exact Heq|]. split.
  - rewrite Heq. destruct configExists; [|done].
    apply Forall_forall. intros ctx Hin.
    by apply list_elem_of_filter in Hin as [Hin _].
  - intros Hne. rewrite FilterContexts_nonempty by done.
    unfold defaultSelected. cbn [andb].
    destruct (config.Contexts cfg) as [|c cs]; [done|].
    cbn [length Nat.ltb Nat.leb].
    rewrite (fold_left_keep (isAvailable allContexts)
               (fun ctx => ctx ∈ allContexts)); [done|].
    apply isAvailable_spec.
Qed.

End ConfigCmdFacts.

(** ** The merged table as a whole *)

Section TableFacts.
Import executor output.
Variable unicodeUpper : string -> string.

Lemma mergeResult_contribution m sh st r :
  mergeResult unicodeUpper m sh st r
  = {| written :=
         written st
         +:+ contribution unicodeUpper m sh (headerPrinted st) r;
       headerPrinted :=
         headerPrinted st || (bringsHeader unicodeUpper m r && sh) |}.
Proof.
  unfold contribution, bringsHeader.
  destruct (Error r) as [e|] eqn:Herr.
  - rewrite (mergeResult_failure unicodeUpper m sh st r e Herr).
    cbn [andb]. by rewrite orb_false_r.
  - apply (mergeResult_success unicodeUpper m sh st r Herr).
Qed.

Lemma mergeResults_tableFrom m sh rs : forall st,
  written (fold_left (mergeResult unicodeUpper m sh) rs st)
  = written st +:+ tableFrom unicodeUpper m sh (headerPrinted st) rs.
Proof.
  induction rs as [|r rs IH]; intros st; cbn [fold_left tableFrom].
  - by rewrite append_nil_r.
  - rewrite IH, mergeResult_contribution. cbn [written headerPrinted].
    by rewrite append_assoc.
Qed.

Lemma MergeResults_tableFrom m rs sh :
  (MergeResults unicodeUpper m rs sh).2
  = tableFrom unicodeUpper {| clusterColumnWidth := columnWidth rs |}
              sh false rs.
Proof.
  unfold MergeResults. destruct rs as [|r rs]; [reflexivity|].
  cbn [length Nat.eqb snd]. rewrite mergeResults_tableFrom.
  cbn [written headerPrinted]. by rewrite append_nil_l.
Qed.

Lemma concatStrings_cons (s : string) (ss : list string) :
  concatStrings (s :: ss) = s +:+ concatStrings ss.
Proof. reflexivity. Qed.

Lemma concatStrings_app (ss tt : list string) :
  concatStrings (ss ++ tt) = concatStrings ss +:+ concatStrings tt.
Proof.
  induction ss as [|s ss IH]; [reflexivity|].
  cbn [app]. by rewrite !concatStrings_cons, IH, append_assoc.
Qed.

(** Without a header to write, a result contributes its rows only. *)
Lemma contribution_no_header m sh printed r :
  negb printed && sh = false \/ bringsHeader unicodeUpper m r = false ->
  contribution unicodeUpper m sh printed r = rowsOnly unicodeUpper m r.
Proof.
  unfold rowsOnly, contribution, bringsHeader, tableRows, hasHeader.
  destruct (Error r) as [e|]; [done|].
  destruct (outputLines r) as [|l0 rest]; [done|].
  destruct (isHeaderLine unicodeUpper m l0); [|done].
  intros [-> | H]; [done | discriminate].
Qed.

Lemma tableFrom_rows m sh printed rs :
  negb printed && sh = false
  \/ Forall (fun r => bringsHeader unicodeUpper m r = false) rs ->
  tableFrom unicodeUpper m sh printed rs
  = concatStrings (rowsOnly unicodeUpper m <$> rs).
Proof.
  revert printed. induction rs as [|r rs IH]; intros printed H; [done|].
  cbn [tableFrom fmap list_fmap]. rewrite concatStrings_cons.
  rewrite contribution_no_header.
  - f_equal. apply IH. destruct H as [H|H].
    + left. destruct sh; [|apply andb_false_r].
      destruct printed; [reflexivity | discriminate].
    + apply Forall_cons in H as [_ H]. by right.
  - destruct H as [H|H]; [by left|].
    apply Forall_cons in H as [H _]. by right.
Qed.

Lemma bringsHeader_receiver (m m' : Merger) (r : Result) :
  bringsHeader unicodeUpper m r = bringsHeader unicodeUpper m' r.
Proof.
  unfold bringsHeader. destruct (Error r); [done|].
  unfold hasHeader. destruct (outputLines r); [done|].
  apply isHeaderLine_receiver.
Qed.

Lemma tableFrom_app_no_header m sh (pre rs : list Result) :
  Forall (fun r => bringsHeader unicodeUpper m r = false) pre ->
  forall printed,
    tableFrom unicodeUpper m sh printed (pre ++ rs)
    = tableFrom unicodeUpper m sh printed pre
      +:+ tableFrom unicodeUpper m sh printed rs.
Proof.
  induction 1 as [|r pre Hr _ IH]; intros printed; [reflexivity|].
  cbn [app tableFrom]. rewrite Hr. cbn [andb].
  by rewrite orb_false_r, IH, append_assoc.
Qed.

(** X22. With headers shown, the merged table has one header, and it
    stands where the first result that brings one begins: before it come
    the rows of the results that bring none (error lines included); then
    the line of that result's header after the label CLUSTER; then the
    rows of that result and of all later ones, whose own header lines,
    equal to the first or not, are dropped. *)
Theorem MergeResults_one_header (m : Merger) (pre post : list Result)
    (r : Result) (h : string) (rest : list string) :
  Forall (fun r' => bringsHeader unicodeUpper m r' = false) pre ->
  Error r = None ->
  outputLines r = h :: rest ->
  isHeaderLine unicodeUpper m h = true ->
  let m' := {| clusterColumnWidth := columnWidth (pre ++ r :: post) |} in
  (MergeResults unicodeUpper m (pre ++ r :: post) true).2
  = concatStrings (rowsOnly unicodeUpper m' <$> pre)
    +:+ (formatLine m' "CLUSTER" h +:+ strings.nl)
    +:+ concatStrings (rowsOnly unicodeUpper m' <$> (r :: post)).
Proof.
  intros Hpre Herr Hlines Hhdr m'.
  rewrite MergeResults_tableFrom. fold m'.
  assert (Hpre' : Forall (fun r' => bringsHeader unicodeUpper m' r' = false)
                         pre).
  { eapply Forall_impl; [exact Hpre|]. intros r' Hr'.
    by rewrite (bringsHeader_receiver m' m). }
  rewrite (tableFrom_app_no_header m' true pre (r :: post) Hpre').
  rewrite (tableFrom_rows m' true false pre) by by right.
  f_equal. cbn [tableFrom fmap list_fmap]. rewrite concatStrings_cons.
  assert (Hhdr' : isHeaderLine unicodeUpper m' h = true)
    by by rewrite (isHeaderLine_receiver unicodeUpper m' m).
  assert (Hbrings : bringsHeader unicodeUpper m' r = true).
  { unfold bringsHeader, hasHeader. by rewrite Herr, Hlines. }
  rewrite Hbrings. cbn [orb andb].
  rewrite (tableFrom_rows m' true true post) by by left.
  unfold rowsOnly at 2. unfold contribution, tableRows.
  rewrite Herr, Hlines, Hhdr'. cbn [negb andb].
  by rewrite append_nil_l, !append_assoc.
Qed.

(** X23. With headers not shown, or when no result brings a header,
    the merged table is the rows of the results one after the other, in
    the order of the results. *)
Theorem MergeResults_rows_only (m : Merger) (rs : list Result)
    (showHeaders : bool) :
  showHeaders = false
  \/ Forall (fun r => bringsHeader unicodeUpper m r = false) rs ->
  (MergeResults unicodeUpper m rs showHeaders).2
  = concatStrings
      (rowsOnly unicodeUpper {| clusterColumnWidth := columnWidth rs |}
       <$> rs).
Proof.
  intros H. rewrite MergeResults_tableFrom. apply tableFrom_rows.
  destruct H as [->|H]; [left; apply andb_false_r|]. right.
  eapply Forall_impl; [exact H|]. intros r Hr.
  by rewrite (bringsHeader_receiver _ m).
Qed.

End TableFacts.

(** ** Column width and alignment *)

Section WidthFacts.
Import executor output.
Variable unicodeUpper : string -> string.

Lemma columnWidth_bounds (rs : list Result) :
  7 <= columnWidth rs
  /\ Forall (fun r => String.length (Context r) <= columnWidth rs) rs
  /\ (columnWidth rs = 7
      \/ Exists (fun r => columnWidth rs = String.length (Context r)) rs).
Proof.
  rewrite columnWidth_max.
  induction rs as [|r rs (IH1 & IH2 & IH3)]; cbn [foldr].
  - split; [done|]. split; [done | by left].
  - repeat split.
    + lia.
    + constructor; [lia|].
      eapply Forall_impl; [exact IH2|]. intros r' Hr'. simpl in Hr'. lia.
    + destruct (Nat.max_spec (String.length (Context r))
                  (foldr (fun r width => String.length (Context r) `max` width)
                         7 rs)) as [[Hlt ->]|[Hge ->]].
      * destruct IH3 as [H7|Hex]; [by left|]. right. by apply Exists_cons_tl.
      * right. by apply Exists_cons_hd.
Qed.

(** X24. [MergeResults] leaves in its receiver the column width it
    used: at least 7, at least the length in bytes of every cluster name,
    and no larger than needed for that; for the empty list the receiver is
    left as it was. *)
Theorem MergeResults_column_width (m : Merger) (rs : list Result)
    (showHeaders : bool) :
  (MergeResults unicodeUpper m rs showHeaders).1
  = match rs with
    | [] => m
    | _ :: _ => {| clusterColumnWidth := columnWidth rs |}
    end
  /\ 7 <= columnWidth rs
  /\ Forall (fun r => String.length (Context r) <= columnWidth rs) rs
  /\ (columnWidth rs = 7
      \/ Exists (fun r => columnWidth rs = String.length (Context r)) rs).
Proof.
  split; [|apply columnWidth_bounds].
  unfold MergeResults. by destruct rs.
Qed.

Lemma formatLine_accepted (m : Merger) (cluster line : string) :
  fmt.widthAccepted (clusterColumnWidth m) = true ->
  formatLine m cluster line
  = fmt.SprintfPadded (clusterColumnWidth m) cluster line.
Proof. intros Hw. unfold formatLine, fmt.SprintfPadded. by rewrite Hw. Qed.

(** X25. The rows of a merged table line up, as long as the column
    width is one [fmt] accepts (below 10,000,010): [formatLine] is then
    what the two calls of [Sprintf] compute, and for every cluster name
    made of ASCII bytes, and for the label CLUSTER, the text of the line
    starts after exactly [columnWidth + 3] bytes. *)
Theorem formatLine_aligned (rs : list Result) (label line : string) :
  fmt.widthAccepted (columnWidth rs) = true ->
  label ∈ "CLUSTER" :: (Context <$> rs) ->
  strings.isASCII label = true ->
  let m' := {| clusterColumnWidth := columnWidth rs |} in
  formatLine m' label line = fmt.SprintfPadded (columnWidth rs) label line
  /\ fmt.SprintfPadded (columnWidth rs) label line
     = (fmt.padRight (columnWidth rs) label +:+ "   ") +:+ line
  /\ String.length (fmt.padRight (columnWidth rs) label +:+ "   ")
     = columnWidth rs + 3.
Proof.
  intros Hw Hin Hascii m'. split; [by apply formatLine_accepted|]. split.
  - unfold fmt.SprintfPadded. by rewrite Hw, append_assoc.
  - rewrite length_append, padRight_ascii_length by done.
    destruct (columnWidth_bounds rs) as (H7 & Hall & _).
    assert (String.length label <= columnWidth rs).
    { apply elem_of_cons in Hin as [->|Hin].
      - exact H7.
      - apply list_elem_of_fmap in Hin as (r & -> & Hr).
        rewrite Forall_forall in Hall. by apply Hall. }
    cbn [String.length]. lia.
Qed.

End WidthFacts.

(** ** The header heuristic *)

Section HeaderFacts.
Import output.
Variable unicodeUpper : string -> string.

Lemma matchCount_filter (upperLine : string) (keywords : list string) :
  forall count,
    fold_left
      (fun count keyword =>
         if strings.Contains upperLine keyword then S count else count)
      keywords count
    = count
      + length (filter (fun k => strings.Contains upperLine k = true)
                       keywords).
Proof.
  induction keywords as [|k keywords IH]; intros count; cbn [fold_left].
  - rewrite filter_nil. simpl. lia.
  - rewrite IH. destruct (strings.Contains upperLine k) eqn:Hk.
    + rewrite filter_cons_True by done. simpl. lia.
    + rewrite filter_cons_False by congruence. lia.
Qed.

Lemma headerKeywords_NoDup : NoDup headerKeywords.
Proof.
  apply (bool_decide_unpack (NoDup headerKeywords)). vm_compute. exact I.
Qed.

Lemma isHeaderLine_iff (m : Merger) (line : string) :
  isHeaderLine unicodeUpper m line = true
  <-> exists k1 k2,
        k1 ∈ headerKeywords /\ k2 ∈ headerKeywords /\ k1 <> k2
        /\ strings.Contains (strings.ToUpper unicodeUpper line) k1 = true
        /\ strings.Contains (strings.ToUpper unicodeUpper line) k2 = true.
Proof.
  unfold isHeaderLine. cbv zeta.
  rewrite matchCount_filter. cbn [Nat.add].
  set (upperLine := strings.ToUpper unicodeUpper line).
  set (P := fun k => strings.Contains upperLine k = true).
  assert (Hnd : NoDup (filter P headerKeywords))
    by apply NoDup_filter, headerKeywords_NoDup.
  rewrite Nat.leb_le. split.
  - intros Hlen.
    destruct (filter P headerKeywords) as [|k1 [|k2 ks]] eqn:Hf;
      [simpl in Hlen; lia | simpl in Hlen; lia |].
    assert (H1 : k1 ∈ filter P headerKeywords) by (rewrite Hf; by left).
    assert (H2 : k2 ∈ filter P headerKeywords)
      by (rewrite Hf; right; by left).
    apply list_elem_of_filter in H1 as [HP1 Hin1].
    apply list_elem_of_filter in H2 as [HP2 Hin2].
    exists k1, k2. repeat split; try done.
    apply NoDup_cons in Hnd as [Hnot _]. intros ->. apply Hnot. by left.
  - intros (k1 & k2 & Hin1 & Hin2 & Hne & HP1 & HP2).
    assert (H1 : k1 ∈ filter P headerKeywords)
      by by apply list_elem_of_filter.
    assert (H2 : k2 ∈ filter P headerKeywords)
      by by apply list_elem_of_filter.
    destruct (filter P headerKeywords) as [|a [|b ks]].
    + by apply elem_of_nil in H1.
    + apply list_elem_of_singleton in H1, H2. congruence.
    + simpl. lia.
Qed.

(** X26. A line is taken for a header exactly when its upper-case form
    contains two different entries of [headerKeywords], as substrings
    (not as words: one column name that contains another entry counts for
    both). *)
Theorem isHeaderLine_two_keywords (m : Merger) (line : string) :
  isHeaderLine unicodeUpper m line = true
  <-> exists k1 k2,
        k1 ∈ headerKeywords /\ k2 ∈ headerKeywords /\ k1 <> k2
        /\ strings.Contains (strings.ToUpper unicodeUpper line) k1 = true
        /\ strings.Contains (strings.ToUpper unicodeUpper line) k2 = true.
Proof. apply isHeaderLine_iff. Qed.

Lemma prefix_spec (p s : string) :
  String.prefix p s = true <-> exists t, s = p +:+ t.
Proof.
  revert s. induction p as [|c p IH]; intros s.
  - split; [|intros _; by destruct s]. intros _. by exists s.
  - destruct s as [|d s]; cbn [String.prefix].
    + split; [done | intros (t & Ht); by rewrite append_cons in Ht].
    + destruct (ascii_dec c d) as [->|Hne].
      * rewrite IH. split.
        -- intros (t & ->). exists t. by rewrite append_cons.
        -- intros (t & Ht). rewrite append_cons in Ht.
           injection Ht as ->. by exists t.
      * split; [done|]. intros (t & Ht). rewrite append_cons in Ht.
        congruence.
Qed.

Lemma Contains_spec (s t : string) :
  strings.Contains s t = true <-> exists a b, s = a +:+ t +:+ b.
Proof.
  induction s as [|c s IH]; cbn [strings.Contains];
    unfold strings.HasPrefix; rewrite orb_true_iff, prefix_spec.
  - split.
    + intros [(b & Hb)|H]; [|done]. by exists "", b.
    + intros (a & b & Hab). left. destruct a as [|c a].
      * by exists b.
      * by rewrite append_cons in Hab.
  - rewrite IH. split.
    + intros [(b & Hb)|(a & b & ->)].
      * by exists "", b.
      * exists (String c a), b. by rewrite append_cons.
    + intros (a & b & Hab). destruct a as [|d a].
      * left. by exists b.
      * right. rewrite append_cons in Hab. injection Hab as -> ->.
        by exists a, b.
Qed.

Lemma Contains_trans (s t u : string) :
  strings.Contains s t = true -> strings.Contains t u = true ->
  strings.Contains s u = true.
Proof.
  rewrite !Contains_spec. intros (a & b & ->) (a' & b' & ->).
  exists (a +:+ a'), (b' +:+ b). by rewrite !append_assoc.
Qed.

(** X27. One word is enough: a line whose upper-case form contains
    NAMESPACE, MESSAGE or STORAGECLASS is taken for a header, because
    each of these contains another entry of the table (NAME, AGE, AGE). *)
Theorem isHeaderLine_single_word (m : Merger) (line word : string) :
  word ∈ ["NAMESPACE"; "MESSAGE"; "STORAGECLASS"] ->
  strings.Contains (strings.ToUpper unicodeUpper line) word = true ->
  isHeaderLine unicodeUpper m line = true.
Proof.
  intros Hword Hcontains. apply isHeaderLine_iff.
  assert (Hin : word ∈ headerKeywords).
  { repeat (apply elem_of_cons in Hword as [->|Hword];
            [apply (bool_decide_unpack _); vm_compute; exact I|]).
    by apply elem_of_nil in Hword. }
  repeat (apply elem_of_cons in Hword as [->|Hword]).
  - exists "NAMESPACE", "NAME". repeat split; try done.
    + apply (bool_decide_unpack _). vm_compute. exact I.
    + by apply (Contains_trans _ "NAMESPACE").
  - exists "MESSAGE", "AGE". repeat split; try done.
    + apply (bool_decide_unpack _). vm_compute. exact I.
    + by apply (Contains_trans _ "MESSAGE").
  - exists "STORAGECLASS", "AGE". repeat split; try done.
    + apply (bool_decide_unpack _). vm_compute. exact I.
    + by apply (Contains_trans _ "STORAGECLASS").
  - by apply elem_of_nil in Hword.
Qed.

End HeaderFacts.

(** ** The grouped merge, further *)

Section GroupedFacts.
Import executor output.

Lemma writeBlock_from (out : string) (r : Result) :
  writeBlock out r = out +:+ groupBlock r.
Proof.
  unfold writeBlock, groupBlock, closedOutput.
  destruct (Error r) as [e|]; [reflexivity|].
  destruct (strings.HasSuffix (Output r) strings.nl);
    cbn [negb]; by rewrite !append_assoc.
Qed.

Lemma writeBlocks_from (rs : list Result) : forall out,
  fold_left writeBlock rs out = out +:+ fold_left writeBlock rs "".
Proof.
  induction rs as [|r rs IH]; intros out; cbn [fold_left].
  - by rewrite append_nil_r.
  - rewrite IH, (IH (writeBlock "" r)), !writeBlock_from.
    by rewrite append_nil_l, append_assoc.
Qed.

(** X28. The grouped merge of two lists of results one after the other
    is the merge of the first followed by the merge of the second: the
    block of a target does not depend on the targets around it. *)
Theorem MergeNonTableOutput_app (m : Merger) (rs1 rs2 : list Result) :
  MergeNonTableOutput m (rs1 ++ rs2)
  = MergeNonTableOutput m rs1 +:+ MergeNonTableOutput m rs2.
Proof.
  unfold MergeNonTableOutput. rewrite fold_left_app.
  apply writeBlocks_from.
Qed.

Lemma substring_all (s t : string) :
  substring 0 (String.length s) (s +:+ t) = s.
Proof.
  induction s as [|c s IH]; [by destruct t|].
  rewrite append_cons. cbn [String.length substring]. by rewrite IH.
Qed.

Lemma substring_tail (s t : string) :
  substring (String.length s) (String.length t) (s +:+ t) = t.
Proof.
  induction s as [|c s IH].
  - rewrite append_nil_l. cbn [String.length].
    rewrite <- (append_nil_r t) at 2. apply substring_all.
  - rewrite append_cons. cbn [String.length substring]. apply IH.
Qed.

Lemma snoc_split (s : string) :
  s = "" \/ exists t c, s = t +:+ String c "".
Proof.
  induction s as [|c s [->|(t & d & ->)]]; [by left| |].
  - right. by exists "", c.
  - right. exists (String c t), d. by rewrite append_cons.
Qed.

Lemma HasSuffix_nl_snoc (t : string) (c : ascii) :
  strings.HasSuffix (t +:+ String c "") strings.nl = Ascii.eqb c strings.LF.
Proof.
  unfold strings.HasSuffix, strings.nl. rewrite length_append.
  cbn [String.length].
  replace (String.length t + 1 - 1) with (String.length t) by lia.
  replace (1 <=? String.length t + 1)%nat with true
    by (symmetry; apply Nat.leb_le; lia).
  change 1 with (String.length (String c "")) at 1.
  rewrite substring_tail. cbn [andb String.eqb].
  by destruct (Ascii.eqb c strings.LF).
Qed.

Lemma TrimSuffix_nl_snoc (t : string) :
  strings.TrimSuffix (t +:+ strings.nl) strings.nl = t.
Proof.
  unfold strings.TrimSuffix. unfold strings.nl at 1.
  rewrite HasSuffix_nl_snoc, Ascii.eqb_refl.
  unfold strings.nl. rewrite length_append. cbn [String.length].
  replace (String.length t + 1 - 1) with (String.length t) by lia.
  apply substring_all.
Qed.

(** The output closed by a newline is the output without its last
    newline, if it has one, followed by a newline. *)
Lemma closedOutput_TrimSuffix (out : string) :
  closedOutput out = strings.TrimSuffix out strings.nl +:+ strings.nl.
Proof.
  unfold closedOutput.
  destruct (snoc_split out) as [->|(t & c & ->)]; [reflexivity|].
  destruct (Ascii.eqb_spec c strings.LF) as [->|Hne].
  - fold strings.nl. rewrite TrimSuffix_nl_snoc.
    unfold strings.nl at 1. by rewrite HasSuffix_nl_snoc, Ascii.eqb_refl.
  - unfold strings.TrimSuffix. rewrite HasSuffix_nl_snoc.
    by destruct (Ascii.eqb_spec c strings.LF).
Qed.

(** X29. The block of a successful result in the grouped merge is its
    delimiter line, then its output with the last newline put in if it
    was missing (never doubled, never removed), then one empty line; so
    a result without output still takes its delimiter line and two line
    ends. *)
Theorem MergeNonTableOutput_success_block (m : Merger) (context out : string)
    (code : Z) :
  MergeNonTableOutput m
    [ {| Context := context; Output := out; Error := None;
         ExitCode := code |} ]
  = "=== Cluster: " +:+ context +:+ " ===" +:+ strings.nl
    +:+ strings.TrimSuffix out strings.nl +:+ strings.nl +:+ strings.nl.
Proof.
  unfold MergeNonTableOutput. cbn [fold_left].
  rewrite writeBlock_from, append_nil_l.
  unfold groupBlock. cbn [Error Context Output].
  by rewrite closedOutput_TrimSuffix, !append_assoc.
Qed.

End GroupedFacts.

(** ** Failed results in the two merges *)

Section FailedResults.
Import executor output.
Variable unicodeUpper : string -> string.
Variable m : Merger.

Lemma Split_length (s : string) (c : ascii) :
  length (strings.Split s c) = S (countByte c s).
Proof.
  induction s as [|d s IH]; [reflexivity|].
  cbn [strings.Split countByte].
  destruct (Ascii.eqb d c).
  - cbn [length]. rewrite IH. lia.
  - destruct (strings.Split s c) as [|f fs]; simpl in *; lia.
Qed.

Lemma countByte_append (c : ascii) (s t : string) :
  countByte c (s +:+ t) = countByte c s + countByte c t.
Proof.
  induction s as [|d s IH]; [reflexivity|].
  rewrite append_cons. cbn [countByte]. rewrite IH. lia.
Qed.

(** The lines of the text a failed result adds to the table. *)
Lemma errorLine_lines (context : string) (e : error) :
  length (strings.Split
            (strings.TrimSuffix (errorLine context e) strings.nl)
            strings.LF)
  = S (countByte strings.LF context
       + countByte strings.LF (errorMessage e)).
Proof.
  unfold errorLine.
  replace ("# Error from cluster " +:+ context +:+ ": "
           +:+ errorMessage e +:+ strings.nl)
    with (("# Error from cluster " +:+ context +:+ ": "
           +:+ errorMessage e) +:+ strings.nl)
    by by rewrite !append_assoc.
  rewrite TrimSuffix_nl_snoc, Split_length, !countByte_append.
  change (countByte strings.LF "# Error from cluster ") with 0.
  change (countByte strings.LF ": ") with 0. lia.
Qed.

(** C6, as the code has it. A result whose error is not nil adds to the
    merged table exactly the text "# Error from cluster <target>:
    <message>" closed by one newline, and nothing else: no data row, no
    change to whether a header was written, and the results after it are
    merged as they would be otherwise. The message is written as it is:
    the text is one line exactly when neither the target nor the message
    holds a newline, and has one more line for each newline they hold.
    Neither merge reads the output of such a result: replacing it by any
    other text changes neither merged string. A failed result does not
    stop the grouped merge either: its block is its delimiter line,
    between the merge of the results before it and the merge of the
    results after it. *)
Theorem merge_failed_result :
  (forall (pre post : list Result) (showHeaders : bool)
          (context out : string) (e : error) (code : Z),
      let r := {| Context := context; Output := out;
                  Error := Some e; ExitCode := code |} in
      let m' := {| clusterColumnWidth := columnWidth (pre ++ r :: post) |} in
      let before :=
        fold_left (mergeResult unicodeUpper m' showHeaders) pre
                  (fresh false) in
      (MergeResults unicodeUpper m (pre ++ r :: post) showHeaders).2
      = written before
        +:+ ("# Error from cluster " +:+ context +:+ ": "
             +:+ errorMessage e +:+ strings.nl)
        +:+ written
              (fold_left (mergeResult unicodeUpper m' showHeaders) post
                         (fresh (headerPrinted before))))
  /\ (forall (context : string) (e : error),
        length (strings.Split
                  (strings.TrimSuffix
                     ("# Error from cluster " +:+ context +:+ ": "
                      +:+ errorMessage e +:+ strings.nl)
                     strings.nl)
                  strings.LF)
        = S (countByte strings.LF context
             + countByte strings.LF (errorMessage e)))
  /\ (forall (f : Result -> string) (rs : list Result) (showHeaders : bool),
        MergeResults unicodeUpper m (overwriteErrored f <$> rs) showHeaders
        = MergeResults unicodeUpper m rs showHeaders
        /\ MergeNonTableOutput m (overwriteErrored f <$> rs)
           = MergeNonTableOutput m rs)
  /\ (forall (pre post : list Result) (context out : string) (e : error)
             (code : Z),
        MergeNonTableOutput m
          (pre ++ {| Context := context; Output := out;
                     Error := Some e; ExitCode := code |} :: post)
        = MergeNonTableOutput m pre
          +:+ ("=== Cluster: " +:+ context +:+ " (Error: "
               +:+ errorMessage e +:+ ") ===" +:+ strings.nl)
          +:+ MergeNonTableOutput m post).
Proof.
  split; [|split; [|split]].
  - intros pre post showHeaders context out e code r m' before.
    rewrite MergeResults_cut. fold m'. fold before.
    rewrite (mergeResult_failure unicodeUpper m' showHeaders _ r e eq_refl).
    cbn [written headerPrinted fresh]. by rewrite append_nil_l.
  - intros context e. apply (errorLine_lines context e).
  - intros f rs showHeaders. split.
    + unfold MergeResults. rewrite length_fmap.
      destruct (length rs =? 0)%nat; [done|].
      assert (Hw : columnWidth (overwriteErrored f <$> rs) = columnWidth rs).
      { rewrite !columnWidth_max.
        induction rs as [|r rs IH]; cbn [fmap list_fmap foldr]; [done|].
        cbn [fmap] in IH. by rewrite IH, overwriteErrored_Context. }
      rewrite Hw. f_equal. f_equal.
      apply fold_left_fmap_ext. intros st r.
      apply mergeResult_overwriteErrored.
    + unfold MergeNonTableOutput.
      apply fold_left_fmap_ext. intros out r.
      apply writeBlock_overwriteErrored.
  - intros pre post context out e code. unfold MergeNonTableOutput.
    rewrite fold_left_app. cbn [fold_left].
    rewrite writeBlocks_from, writeBlock_from.
    unfold groupBlock. cbn [Error Context]. by rewrite append_assoc.
Qed.

End FailedResults.

(** C6 as stated fails: the error [executeOne] stores for a kubectl that
    wrote "boom" and a newline on standard error and exited with status 1
    gives, in the merged table, the error line and an empty line after
    it: two lines, not one. *)
Lemma merge_failed_result_two_lines :
  let e := executor.NewExecutor "" 30000000000 in
  let o := {| executor.stdout := "";
              executor.stderr := "boom" +:+ strings.nl;
              executor.err := Some (executor.ExitError 1 "exit status 1") |} in
  let r := executor.executeOne (constRunner o) e "west" ["get"; "pods"] in
  let merged :=
    (output.MergeResults noUnicodeUpper output.NewMerger [r] true).2 in
  merged = "# Error from cluster west: boom" +:+ strings.nl +:+ strings.nl
  /\ strings.Split (strings.TrimSuffix merged strings.nl) strings.LF
     = ["# Error from cluster west: boom"; ""]
  /\ length (strings.Split (strings.TrimSuffix merged strings.nl) strings.LF)
     <> 1.
Proof. vm_compute. repeat split; discriminate. Qed.

(** ** Concrete cases of the further properties *)

Lemma Execute_slots_witness :
  let e := executor.NewExecutor "" 30000000000 in
  let run := constRunner {| executor.stdout := "ok"; executor.stderr := "";
                            executor.err := None |} in
  let rs := executor.Execute_in_order run e ["east"; "west"] ["get"; "pods"]
              [1; 0] in
  length rs = 2
  /\ forall i context,
       ["east"; "west"] !! i = Some context ->
       exists run', rs !! i
                    = Some (executor.executeOne run' e context ["get"; "pods"]).
Proof.
  intros e run rs.
  apply (Execute_slots e ["east"; "west"] ["get"; "pods"] rs).
  apply (Execute_in_order_returns e ["east"; "west"] ["get"; "pods"] run [1; 0]).
  apply perm_swap.
Defined.

Lemma Execute_order_irrelevant_witness :
  let e := executor.NewExecutor "" 30000000000 in
  let run := constRunner {| executor.stdout := "ok"; executor.stderr := "";
                            executor.err := None |} in
  executor.Execute_in_order run e ["east"; "west"] ["get"; "pods"] [1; 0]
  = [okResult "east" "ok"; okResult "west" "ok"].
Proof.
  intros e run.
  etrans.
  - apply (Execute_order_irrelevant e ["east"; "west"] ["get"; "pods"] run
             [1; 0]).
    apply perm_swap.
  - reflexivity.
Defined.

Lemma FilterContexts_unknown_only_witness :
  cluster.FilterContexts sampleManager ["south"; "nowhere"] = [].
Proof.
  apply FilterContexts_unknown_only; [discriminate|].
  apply (bool_decide_unpack _). vm_compute. exact I.
Defined.

Lemma FilterContexts_idempotent_witness :
  cluster.FilterContexts sampleManager
    (cluster.FilterContexts sampleManager ["north"; "south"; "east"])
  = cluster.FilterContexts sampleManager ["north"; "south"; "east"].
Proof.
  apply FilterContexts_idempotent.
  apply (bool_decide_unpack _). vm_compute. exact I.
Defined.

Lemma RemoveContext_spec_witness :
  let c := {| config.Contexts := ["east"; "west"; "north"];
              config.KubeConfig := "" |} in
  config.Contexts (config.RemoveContext c "west").1 = ["east"; "north"]
  /\ config.HasContext (config.RemoveContext c "west").1 "west" = false.
Proof.
  intros c.
  assert (Hnd : NoDup (config.Contexts c)).
  { apply (bool_decide_unpack _). vm_compute. exact I. }
  pose proof (RemoveContext_spec c "west" Hnd) as (H1 & _ & H3 & _).
  split; [|exact H3]. etrans; [exact H1|]. vm_compute. reflexivity.
Defined.

Lemma RemoveContext_first_only_witness :
  config.RemoveContext
    {| config.Contexts := ["east"; "west"; "north"; "west"];
       config.KubeConfig := "" |} "west"
  = ({| config.Contexts := ["east"; "north"; "west"];
        config.KubeConfig := "" |}, true).
Proof.
  refine (proj1 (RemoveContext_first_only "" ["east"] ["north"] [] "west" _)).
  apply (bool_decide_unpack _). vm_compute. exact I.
Defined.

Lemma AddContext_RemoveContext_witness :
  let c := {| config.Contexts := ["east"; "west"]; config.KubeConfig := "" |} in
  config.RemoveContext (config.AddContext c "north").1 "north" = (c, true).
Proof.
  intros c. apply AddContext_RemoveContext.
  apply (bool_decide_unpack _). vm_compute. exact I.
Defined.

Lemma flagLoop_any_order_witness :
  cmd.flagLoop ["--timeout"; "--all-contexts"; "--contexts"; "--kubeconfig"]
               "--contexts=east,west"
  = cmd.isOurFlag "--contexts=east,west".
Proof.
  apply flagLoop_any_order.
  apply (bool_decide_unpack _). vm_compute. exact I.
Defined.

Lemma separateArgs_takes_next_witness :
  cmd.separateArgs ["--all-contexts"; "get"; "deployments"]
  = (["--all-contexts"; "get"], ["deployments"]).
Proof.
  etrans.
  - apply separateArgs_takes_next; vm_compute; reflexivity.
  - vm_compute. reflexivity.
Defined.

Lemma plan_dispatch_witness :
  let flags := {| cmd.kubeConfig := ""; cmd.contexts := ["north"; "south"];
                  cmd.allContexts := false; cmd.timeout := 30000000000 |} in
  cmd.plan flags sampleFiles ["get"; "pods"]
  = cmd.Dispatch ["north"]
      (executor.NewExecutor "/home/u/.kube/config" 30000000000)
  /\ exists mgr,
       cmd.NewManager sampleFiles "" = inl mgr
       /\ Forall (fun ctx => ctx ∈ cluster.GetContexts mgr) ["north"].
Proof.
  intros flags.
  assert (Hplan : cmd.plan flags sampleFiles ["get"; "pods"]
                  = cmd.Dispatch ["north"]
                      (executor.NewExecutor "/home/u/.kube/config"
                                            30000000000))
    by (vm_compute; reflexivity).
  split; [exact Hplan|].
  destruct (plan_dispatch flags sampleFiles ["get"; "pods"] ["north"] _ Hplan)
    as (_ & _ & mgr & Hmgr & Hall & _).
  exists mgr. by split.
Defined.

Lemma plan_unknown_contexts_witness :
  cmd.plan {| cmd.kubeConfig := ""; cmd.contexts := ["south"];
              cmd.allContexts := false; cmd.timeout := 30000000000 |}
           sampleFiles ["get"; "pods"]
  = cmd.Abort ("No valid contexts found" +:+ strings.nl).
Proof.
  apply (plan_unknown_contexts _ sampleFiles ["get"; "pods"] sampleManager).
  - discriminate.
  - reflexivity.
  - discriminate.
  - apply (bool_decide_unpack _). vm_compute. exact I.
Defined.

Lemma configRemoveLoop_spec_witness :
  let cfg := {| config.Contexts := ["east"; "west"; "north"];
                config.KubeConfig := "" |} in
  let st := cmd.configRemoveLoop cfg ["north"; "south"; "east"; "north"] in
  config.Contexts (cmd.removeCfg st) = ["west"]
  /\ cmd.removed st = 2.
Proof.
  intros cfg st.
  assert (Hnd : NoDup (config.Contexts cfg)).
  { apply (bool_decide_unpack _). vm_compute. exact I. }
  pose proof (configRemoveLoop_spec cfg ["north"; "south"; "east"; "north"]
                Hnd) as (H1 & H2 & _).
  split.
  - etrans; [exact H1|]. vm_compute. reflexivity.
  - vm_compute. reflexivity.
Defined.

Lemma MergeResults_one_header_witness :
  (output.MergeResults noUnicodeUpper output.NewMerger
     [ {| executor.Context := "east"; executor.Output := "";
          executor.Error := Some (executor.errorString "boom");
          executor.ExitCode := 1 |};
       okResult "west"
         ("NAME READY" +:+ strings.nl +:+ "web 1/1" +:+ strings.nl);
       okResult "north"
         ("NAME STATUS AGE" +:+ strings.nl +:+ "db Running 2d"
          +:+ strings.nl) ] true).2
  = "# Error from cluster east: boom" +:+ strings.nl
    +:+ "CLUSTER   NAME READY" +:+ strings.nl
    +:+ "west      web 1/1" +:+ strings.nl
    +:+ "north     db Running 2d" +:+ strings.nl.
Proof.
  etrans.
  - apply (MergeResults_one_header noUnicodeUpper output.NewMerger
             [ {| executor.Context := "east"; executor.Output := "";
                  executor.Error := Some (executor.errorString "boom");
                  executor.ExitCode := 1 |} ]
             [ okResult "north"
                 ("NAME STATUS AGE" +:+ strings.nl +:+ "db Running 2d"
                  +:+ strings.nl) ]
             (okResult "west"
                ("NAME READY" +:+ strings.nl +:+ "web 1/1" +:+ strings.nl))
             "NAME READY" ["web 1/1"]).
    + repeat constructor.
    + reflexivity.
    + vm_compute. reflexivity.
    + vm_compute. reflexivity.
  - vm_compute. reflexivity.
Defined.

Lemma MergeResults_rows_only_witness :
  (output.MergeResults noUnicodeUpper output.NewMerger
     [ okResult "west"
         ("NAME READY" +:+ strings.nl +:+ "web 1/1" +:+ strings.nl);
       okResult "north"
         ("NAME READY" +:+ strings.nl +:+ "db 1/1" +:+ strings.nl) ] false).2
  = "west      web 1/1" +:+ strings.nl
    +:+ "north     db 1/1" +:+ strings.nl.
Proof.
  etrans.
  - apply MergeResults_rows_only. by left.
  - vm_compute. reflexivity.
Defined.

Lemma formatLine_aligned_witness :
  let rs := [okResult "prod-east-1" ""; okResult "dev" ""] in
  String.length (fmt.padRight (output.columnWidth rs) "dev" +:+ "   ") = 14.
Proof.
  intros rs.
  refine (proj2 (proj2 (formatLine_aligned rs "dev" "web 1/1" _ _ _))).
  - vm_compute. reflexivity.
  - apply (bool_decide_unpack _). vm_compute. exact I.
  - reflexivity.
Defined.

Lemma isHeaderLine_single_word_witness :
  output.isHeaderLine noUnicodeUpper output.NewMerger
    "error: message too long" = true.
Proof.
  apply (isHeaderLine_single_word noUnicodeUpper output.NewMerger
           "error: message too long" "MESSAGE").
  - apply (bool_decide_unpack _). vm_compute. exact I.
  - vm_compute. reflexivity.
Defined.
